(** * Naive Bayes sentiment classifier: bag-of-words and estimator

    Shallow embedding of [src/data_processing.py] (vocabulary builder and
    bag-of-words vectorizer) and [src/naive_bayes.py] (the [NaiveBayes]
    class), followed by the properties of the specification.

    Numbers.  Tensor entries are [float32] in the source.  Here a scalar is
    an exact real number or one of the IEEE 754 special values [inf],
    [-inf], [nan]: rounding, overflow and the sign of zero are not
    modelled, the special values and the operations that produce them
    (division by zero, logarithm of zero, [0 * inf]) are.  A property that
    rounding could turn into its contrary (a number is strictly positive,
    a comparison is strict) is stated on data of moderate size only, see
    [moderate] and [count_matrix], where [float32] neither absorbs a term
    of a sum nor leaves its range.

    Python exceptions are values of [exn]; a call that may raise returns a
    [result]. *)

From Stdlib Require Import Reals Lra Lia ZArith List.
From stdpp Require Import gmap strings list fin_maps.
Import ListNotations.

Local Open Scope R_scope.

(** ** Scalars *)

Inductive float : Type :=
| Fin (r : R)
| PInf
| NInf
| NaN.

Definition Reqb (x y : R) : bool := if Req_EM_T x y then true else false.
Definition Rltb (x y : R) : bool := if Rlt_dec x y then true else false.

Definition fzero : float := Fin 0.
Definition fone : float := Fin 1.

Definition isnan (x : float) : bool :=
  match x with NaN => true | _ => false end.

Definition fadd (x y : float) : float :=
  match x, y with
  | NaN, _ | _, NaN => NaN
  | PInf, NInf | NInf, PInf => NaN
  | PInf, _ | _, PInf => PInf
  | NInf, _ | _, NInf => NInf
  | Fin a, Fin b => Fin (a + b)
  end.

Definition fneg (x : float) : float :=
  match x with
  | Fin a => Fin (- a)
  | PInf => NInf
  | NInf => PInf
  | NaN => NaN
  end.

Definition fsub (x y : float) : float := fadd x (fneg y).

(** The infinity of the sign of [a], [nan] for zero. *)
Definition signed_inf (a : R) (pos : float) (neg : float) : float :=
  if Reqb a 0 then NaN else if Rltb 0 a then pos else neg.

Definition fmul (x y : float) : float :=
  match x, y with
  | NaN, _ | _, NaN => NaN
  | Fin a, Fin b => Fin (a * b)
  | Fin a, PInf | PInf, Fin a => signed_inf a PInf NInf
  | Fin a, NInf | NInf, Fin a => signed_inf a NInf PInf
  | PInf, PInf | NInf, NInf => PInf
  | PInf, NInf | NInf, PInf => NInf
  end.

Definition fdiv (x y : float) : float :=
  match x, y with
  | NaN, _ | _, NaN => NaN
  | Fin a, Fin b =>
      if Reqb b 0 then signed_inf a PInf NInf else Fin (a / b)
  | Fin _, PInf | Fin _, NInf => Fin 0
  | PInf, Fin b => if Rltb b 0 then NInf else PInf
  | NInf, Fin b => if Rltb b 0 then PInf else NInf
  | PInf, PInf | PInf, NInf | NInf, PInf | NInf, NInf => NaN
  end.

(** [torch.log]: [log 0 = -inf], [log] of a negative number is [nan]. *)
Definition flog (x : float) : float :=
  match x with
  | Fin a => if Reqb a 0 then NInf else if Rltb 0 a then Fin (ln a) else NaN
  | PInf => PInf
  | NInf => NaN
  | NaN => NaN
  end.

Definition fexp (x : float) : float :=
  match x with
  | Fin a => Fin (exp a)
  | PInf => PInf
  | NInf => Fin 0
  | NaN => NaN
  end.

(** The comparison [a < b] of IEEE 754: false as soon as one side is [nan]. *)
Definition flt (x y : float) : bool :=
  match x, y with
  | NaN, _ | _, NaN => false
  | Fin a, Fin b => Rltb a b
  | NInf, NInf | PInf, _ => false
  | NInf, _ => true
  | Fin _, PInf => true
  | Fin _, NInf => false
  end.

Definition of_nat (n : nat) : float := Fin (INR n).

Arguments fdiv : simpl never.
Arguments flog : simpl never.

(** ** Python exceptions and results *)

Inductive exn : Type :=
| ValueError (msg : string)
| PyException (msg : string)   (* the base class [Exception] *)
| RuntimeError                 (* raised by torch: shapes, empty reductions *)
| IndexError                   (* index or mask out of range *)
| KeyError (key : nat).        (* missing dictionary key *)

Inductive result (A : Type) : Type :=
| Ok (a : A)
| Raise (e : exn).
Arguments Ok {A} a.
Arguments Raise {A} e.

Definition bind {A B} (r : result A) (k : A -> result B) : result B :=
  match r with
  | Ok a => k a
  | Raise e => Raise e
  end.

Notation "'try' x <- r 'in' k" := (bind r (fun x => k))
  (at level 10, x name, r at level 100, k at level 200).

(** A loop whose body may raise: the first exception ends it. *)
Fixpoint for_each {A B} (body : A -> result B) (l : list A) : result (list B) :=
  match l with
  | [] => Ok []
  | a :: l' =>
      try b <- body a in
      try bs <- for_each body l' in
      Ok (b :: bs)
  end.

(** ** Tensors *)

(** A one-dimensional tensor is the list of its entries.  A two-dimensional
    tensor of shape [(length mrows, ncols)] keeps its number of columns,
    which [shape[1]] reads also when there is no row. *)
Record Matrix : Type := mkMatrix {
  ncols : nat;
  mrows : list (list float)
}.

Definition matrix_wf (X : Matrix) : Prop :=
  Forall (fun r => length r = ncols X) (mrows X).

Definition zeros (n : nat) : list float := replicate n fzero.

(** [t.sum()] *)
Definition tsum (t : list float) : float := fold_right fadd fzero t.

(** [m.sum(dim=0)]: the vector of the column sums. *)
Definition sum_dim0 (cols : nat) (rows : list (list float)) : list float :=
  map (fun w => tsum (map (fun r => nth w r fzero) rows)) (seq 0 cols).

(** The shapes [(n)] and [(m)] broadcast together when they are equal or one
    of them is 1. *)
Definition broadcastable (n m : nat) : bool :=
  (n =? m)%nat || (n =? 1)%nat || (m =? 1)%nat.

Fixpoint zip_mul (a b : list float) : list float :=
  match a, b with
  | x :: a', y :: b' => fmul x y :: zip_mul a' b'
  | _, _ => []
  end.

(** [a * b] on one-dimensional tensors, with torch's broadcasting. *)
Definition tmul (a b : list float) : result (list float) :=
  if (length a =? length b)%nat then Ok (zip_mul a b)
  else match a, b with
       | [x], _ => Ok (map (fmul x) b)
       | _, [y] => Ok (map (fun x => fmul x y) a)
       | _, _ => Raise RuntimeError
       end.

(** [torch.bincount]: one bin per value up to the largest; no bin for an
    empty input. *)
Definition list_max_nat (l : list nat) : nat := fold_right Nat.max 0%nat l.

Definition bincount (labels : list nat) : list nat :=
  match labels with
  | [] => []
  | _ => map (count_occ Nat.eq_dec labels) (seq 0 (S (list_max_nat labels)))
  end.

(** [torch.max(t)] of an integer tensor; an empty tensor has no maximum. *)
Definition tmax (labels : list nat) : result nat :=
  match labels with
  | [] => Raise RuntimeError
  | _ => Ok (list_max_nat labels)
  end.

(** [features[labels == c]]: the rows whose label is [c]; the mask must have
    one entry per row. *)
Fixpoint masked (rows : list (list float)) (labels : list nat) (c : nat)
  : list (list float) :=
  match rows, labels with
  | r :: rows', l :: labels' =>
      if (l =? c)%nat then r :: masked rows' labels' c
      else masked rows' labels' c
  | _, _ => []
  end.

Definition select_rows (X : Matrix) (labels : list nat) (c : nat)
  : result (list (list float)) :=
  if (length labels =? length (mrows X))%nat
  then Ok (masked (mrows X) labels c)
  else Raise IndexError.

(** [torch.argmax]: the first index of a maximal entry, [nan] counting as
    larger than every number. *)
Definition greater_or_nan (x best : float) : bool :=
  (isnan x && negb (isnan best)) || flt best x.

Fixpoint argmax_from (best : float) (ibest : nat) (i : nat) (t : list float)
  : nat :=
  match t with
  | [] => ibest
  | x :: t' =>
      if greater_or_nan x best then argmax_from x i (S i) t'
      else argmax_from best ibest (S i) t'
  end.

Definition argmax (t : list float) : result nat :=
  match t with
  | [] => Raise RuntimeError
  | x :: t' => Ok (argmax_from x 0%nat 1%nat t')
  end.

(** [torch.nn.functional.softmax(t, dim=0)]: exponentials of the entries
    shifted by their maximum, divided by their sum. *)
Definition fmax (x y : float) : float :=
  if isnan x || isnan y then NaN else if flt x y then y else x.

Definition tmaxf (t : list float) : float := fold_right fmax NInf t.

Definition softmax (t : list float) : list float :=
  let m := tmaxf t in
  let e := map (fun x => fexp (fsub x m)) t in
  let s := tsum e in
  map (fun x => fdiv x s) e.

(** A loop that threads a state through a body that may raise. *)
Fixpoint for_fold {S A} (body : S -> A -> result S) (l : list A) (s : S)
  : result S :=
  match l with
  | [] => Ok s
  | a :: l' => try s' <- body s a in for_fold body l' s'
  end.

(** The Python integer fits in 64 bits. *)
Definition fits_int64 (i : Z) : bool :=
  ((- 2 ^ 63 <=? i) && (i <? 2 ^ 63))%Z.

(** [t[i]] for a Python integer [i]: negative indices count from the end.
    An index outside of [-n .. n-1] raises [IndexError] when it fits in 64
    bits; one that does not is refused by torch's conversion of the index,
    with a [ValueError] whose message is not modelled.  (A tensor has fewer
    than [2^63] entries, so that an index in range fits.) *)
Definition py_index (n : nat) (i : Z) : result nat :=
  if ((0 <=? i) && (i <? Z.of_nat n))%Z then Ok (Z.to_nat i)
  else if ((- Z.of_nat n <=? i) && (i <? 0))%Z
       then Ok (Z.to_nat (Z.of_nat n + i))
       else if fits_int64 i then Raise IndexError
            else Raise (ValueError EmptyString).

(** ** data_processing.py *)

(** Modelled from the spec: the class [SentimentExample] of [src/utils.py],
    which is not among the sources.  An example is an ordered sequence of
    word tokens and an integer label. *)
Record SentimentExample : Type := mkExample {
  words : list string;
  label : Z
}.

(** The body of the inner loop of [build_vocab]: a new word takes the next
    index. *)
Definition add_word (st : gmap string Z * Z) (word : string)
  : gmap string Z * Z :=
  let '(vocab, index) := st in
  match vocab !! word with
  | Some _ => (vocab, index)
  | None => (<[word := index]> vocab, (index + 1)%Z)
  end.

Definition build_vocab (examples : list SentimentExample) : gmap string Z :=
  fst (fold_left (fun st example => fold_left add_word (words example) st)
                 examples (∅, 0%Z)).

(** The body of the loop of [bag_of_words]. *)
Definition bow_step (vocab : gmap string Z) (binary : bool)
    (bow_vector : list float) (word : string) : result (list float) :=
  match vocab !! word with
  | None => Ok bow_vector
  | Some index =>
      try i <- py_index (length bow_vector) index in
      if binary then Ok (<[i := fone]> bow_vector)
      else Ok (alter (fun x => fadd x fone) i bow_vector)
  end.

Definition bag_of_words (text : list string) (vocab : gmap string Z)
    (binary : bool) : result (list float) :=
  for_fold (bow_step vocab binary) text (zeros (size vocab)).

(** ** naive_bayes.py *)

(** The attributes of a [NaiveBayes] object; [None] until [fit] sets them.
    Both dictionaries are built with the keys [0 .. n-1] in this order and
    are kept as the list of their values: key [c] is position [c]. *)
Record NaiveBayes : Type := mkNaiveBayes {
  class_priors : option (list float);
  conditional_probabilities : option (list (list float));
  vocab_size : option nat
}.

(** [NaiveBayes()] *)
Definition init : NaiveBayes :=
  {| class_priors := None;
     conditional_probabilities := None;
     vocab_size := None |}.

(** [d[k]] on such a dictionary. *)
Definition getitem {A} (d : list A) (k : nat) : result A :=
  match d !! k with
  | Some v => Ok v
  | None => Raise (KeyError k)
  end.

(** The keys of such a dictionary, in iteration order. *)
Definition keys {A} (d : list A) : list nat := seq 0 (length d).

Definition estimate_class_priors (labels : list nat) : list float :=
  let num_samples := length labels in
  let class_counts := bincount labels in
  map (fun count => fdiv (of_nat count) (of_nat num_samples)) class_counts.

Definition estimate_conditional_probabilities
    (features : Matrix) (labels : list nat) (delta : float)
  : result (list (list float)) :=
  try max_label <- tmax labels in
  let num_classes := S max_label in
  let vocab_size := ncols features in
  try word_counts <-
    for_each (fun c =>
                try class_features <- select_rows features labels c in
                Ok (sum_dim0 vocab_size class_features))
             (seq 0 num_classes) in
  Ok (map (fun wc =>
             let denom := fadd (tsum wc) (fmul delta (of_nat vocab_size)) in
             map (fun x => fdiv (fadd x delta) denom) wc)
          word_counts).

(** [fit] assigns the attributes one after the other: an exception raised
    while estimating the conditional probabilities leaves the first two
    assigned.  The result is the object after the call and the outcome. *)
Definition fit (self : NaiveBayes) (features : Matrix) (labels : list nat)
    (delta : float) : NaiveBayes * result unit :=
  let self1 :=
    {| class_priors := Some (estimate_class_priors labels);
       conditional_probabilities := conditional_probabilities self;
       vocab_size := vocab_size self |} in
  let self2 :=
    {| class_priors := class_priors self1;
       conditional_probabilities := conditional_probabilities self1;
       vocab_size := Some (ncols features) |} in
  match estimate_conditional_probabilities features labels delta with
  | Ok cp =>
      ({| class_priors := class_priors self2;
          conditional_probabilities := Some cp;
          vocab_size := vocab_size self2 |}, Ok tt)
  | Raise e => (self2, Raise e)
  end.

Definition untrained_msg1 : string :=
  "Model must be trained before estimating class posteriors.".
Definition untrained_msg2 : string :=
  "Model not trained. Please call the train method first.".

(** The body of the loop of [estimate_class_posteriors]: the log-posterior
    of class [c]. *)
Definition log_posterior (priors : list float) (cond : list (list float))
    (feature : list float) (c : nat) : result float :=
  try prior <- getitem priors c in
  let log_prior := flog prior in
  try cond_c <- getitem cond c in
  try prod <- tmul feature (map flog cond_c) in
  let log_likelihood := tsum prod in
  Ok (fadd log_prior log_likelihood).

Definition estimate_class_posteriors (self : NaiveBayes) (feature : list float)
  : result (list float) :=
  match conditional_probabilities self, class_priors self with
  | Some cond, Some priors =>
      try log_posteriors <-
        for_each (log_posterior priors cond feature) (keys priors) in
      try lp0 <- getitem log_posteriors 0 in
      try lp1 <- getitem log_posteriors 1 in
      Ok [lp0; lp1]
  | _, _ => Raise (ValueError untrained_msg1)
  end.

(** Python's [not d] for an attribute that is [None] or a dictionary. *)
Definition falsy {A} (d : option (list A)) : bool :=
  match d with
  | None | Some [] => true
  | Some (_ :: _) => false
  end.

Definition predict (self : NaiveBayes) (feature : list float) : result nat :=
  if falsy (class_priors self) || falsy (conditional_probabilities self)
  then Raise (PyException untrained_msg2)
  else
    try log_posteriors <- estimate_class_posteriors self feature in
    argmax log_posteriors.

Definition predict_proba (self : NaiveBayes) (feature : list float)
  : result (list float) :=
  if falsy (class_priors self) || falsy (conditional_probabilities self)
  then Raise (PyException untrained_msg2)
  else
    try log_posteriors <- estimate_class_posteriors self feature in
    Ok (softmax log_posteriors).

(** ** Models reached by training *)

(** [m] is the object left by a call of [fit] that raised nothing. *)
Definition trained_by (m : NaiveBayes) (features : Matrix)
    (labels : list nat) (delta : float) : Prop :=
  matrix_wf features /\
  exists self, fit self features labels delta = (m, Ok tt).

Definition trained (m : NaiveBayes) : Prop :=
  exists features labels delta, trained_by m features labels delta.

(** The exceptions by which the inference operations report a model that
    was not trained. *)
Definition untrained_error (e : exn) : bool :=
  match e with
  | ValueError _ | PyException _ => true
  | _ => false
  end.

(** The shape of the attributes of a trained model: one prior and one
    vector of conditional probabilities per class, one probability per
    vocabulary word. *)
Definition model_shape (m : NaiveBayes) (classes vocab : nat) : Prop :=
  exists priors cond,
    class_priors m = Some priors /\
    conditional_probabilities m = Some cond /\
    vocab_size m = Some vocab /\
    length priors = classes /\
    length cond = classes /\
    Forall (fun cond_c => length cond_c = vocab) cond.

(** The exception by which torch reports shapes that do not fit. *)
Definition dimension_error (e : exn) : bool :=
  match e with
  | RuntimeError => true
  | _ => false
  end.

(** The call raised an exception of the kind [kind]. *)
Definition signals {A} (kind : exn -> bool) (r : result A) : bool :=
  match r with
  | Raise e => kind e
  | Ok _ => false
  end.

(** The log-posterior of class [c] for a feature vector of the length of
    the vocabulary: [log(prior[c]) + sum_w feature[w] * log(P(w|c))]. *)
Definition spec_log_posterior (prior_c : float) (cond_c feature : list float)
  : float :=
  fadd (flog prior_c) (tsum (zip_mul feature (map flog cond_c))).

(** The order torch's [argmax] maximises: the usual one on numbers and
    infinities, with [nan] above everything. *)
Definition torch_gt (x y : float) : bool :=
  (isnan x && negb (isnan y)) || flt y x.

Definition torch_ge (x y : float) : bool := negb (torch_gt y x).

(** The count of word [w] in class [c] as the specification words it: the
    sum, over the training examples whose label is [c], of their entry in
    column [w]. *)
Definition spec_count (features : Matrix) (labels : list nat) (c w : nat)
  : float :=
  tsum (map (fun example => nth w (fst example) fzero)
            (List.filter (fun example => (snd example =? c)%nat)
                         (combine (mrows features) labels))).

(** The Laplace-smoothed estimate of the specification. *)
Definition spec_smoothed (features : Matrix) (labels : list nat) (delta : float)
    (c w : nat) : float :=
  fdiv (fadd (spec_count features labels c w) delta)
       (fadd (tsum (map (spec_count features labels c)
                        (seq 0 (ncols features))))
             (fmul delta (of_nat (ncols features)))).

(** Real sums, to state what a sum of finite scalars is. *)
Definition Rsum (l : list R) : R := fold_right Rplus 0 l.

(** A finite, non-negative scalar; a matrix of such entries. *)
Definition finite_nonneg (x : float) : Prop :=
  match x with
  | Fin r => 0 <= r
  | _ => False
  end.

Definition nonneg_matrix (X : Matrix) : Prop :=
  Forall (Forall finite_nonneg) (mrows X).

(** The real number a finite scalar stands for. *)
Definition to_R (x : float) : R :=
  match x with
  | Fin r => r
  | _ => 0
  end.

(** The denominator of the smoothed estimate of class [c], as a real
    number: the total count of the class plus [d] per vocabulary word. *)
Definition class_total (X : Matrix) (labels : list nat) (c : nat) : R :=
  Rsum (map to_R (map (spec_count X labels c) (seq 0 (ncols X)))).

Definition class_denom (X : Matrix) (labels : list nat) (d : R) (c : nat)
  : R :=
  class_total X labels c + d * INR (ncols X).

(** The invariant of a vocabulary in the data model: every word has its
    own index, and the indices are positions of the feature vector. *)
Definition vocab_wf (vocab : gmap string Z) : Prop :=
  (forall t i, vocab !! t = Some i -> (0 <= i < Z.of_nat (size vocab))%Z) /\
  (forall t1 t2 i, vocab !! t1 = Some i -> vocab !! t2 = Some i -> t1 = t2).

(** What the loops of [build_vocab] keep true: the next index is the number
    of words seen, and the words seen have distinct smaller indices. *)
Definition vocab_inv (st : gmap string Z * Z) : Prop :=
  st.2 = Z.of_nat (size st.1) /\
  (forall t i, st.1 !! t = Some i -> (0 <= i < st.2)%Z) /\
  (forall t1 t2 i, st.1 !! t1 = Some i -> st.1 !! t2 = Some i -> t1 = t2).

(** The entry of word [t] in the bag of words of [text]. *)
Definition spec_bow_entry (binary : bool) (text : list string) (t : string)
  : float :=
  if binary then (if bool_decide (t ∈ text) then fone else fzero)
  else of_nat (count_occ String.string_dec text t).

(** The tokens of [text] that the vocabulary knows. *)
Definition in_vocabulary (vocab : gmap string Z) (text : list string)
  : list string :=
  List.filter (fun t => bool_decide (is_Some (vocab !! t))) text.

(** ** The end-to-end scenario of the specification *)

Definition scenario_examples : list SentimentExample :=
  [mkExample ["good"; "movie"]%string 1; mkExample ["bad"; "movie"]%string 0].

Definition scenario_vocab : gmap string Z :=
  <["good"%string := 0%Z]> (<["movie"%string := 1%Z]>
                              (<["bad"%string := 2%Z]> ∅)).

(** The two vectorized examples, stacked. *)
Definition scenario_features : Matrix :=
  mkMatrix 3 [[Fin 1; Fin 1; Fin 0]; [Fin 0; Fin 1; Fin 1]].

Definition scenario_labels : list nat := [1; 0]%nat.

Definition scenario_model : NaiveBayes :=
  fst (fit init scenario_features scenario_labels (Fin 1)).

(** The vector of the tokens [["bad"]]. *)
Definition scenario_query : list float := [Fin 0; Fin 0; Fin 1].

(** ** Notions for the further properties *)

(** All the words of the examples, in reading order. *)
Definition all_words (examples : list SentimentExample) : list string :=
  concat (map words examples).

(** The number of distinct words of a list. *)
Definition distinct (l : list string) : nat :=
  size (list_to_set l : gset string).

(** The vocabulary sends token [t] to position [j] of a vector of length
    [n]; it sends [t] outside of the vector. *)
Definition token_hits (vocab : gmap string Z) (n j : nat) (t : string)
  : bool :=
  match vocab !! t with
  | Some i => match py_index n i with
              | Ok k => (k =? j)%nat
              | Raise _ => false
              end
  | None => false
  end.

Definition out_of_range (vocab : gmap string Z) (n : nat) (t : string)
  : bool :=
  match vocab !! t with
  | Some i => match py_index n i with
              | Ok _ => false
              | Raise _ => true
              end
  | None => false
  end.

(** The exception that token [t] raises, and the one raised by the first
    token of [text] that raises. *)
Definition token_error (vocab : gmap string Z) (n : nat) (t : string)
  : option exn :=
  match vocab !! t with
  | Some i => match py_index n i with
              | Ok _ => None
              | Raise e => Some e
              end
  | None => None
  end.

Fixpoint first_error (vocab : gmap string Z) (n : nat) (text : list string)
  : option exn :=
  match text with
  | [] => None
  | t :: text' =>
      match token_error vocab n t with
      | Some e => Some e
      | None => first_error vocab n text'
      end
  end.

(** The number of tokens of [text] sent to position [j]. *)
Definition hits (vocab : gmap string Z) (n : nat) (text : list string)
    (j : nat) : nat :=
  length (List.filter (token_hits vocab n j) text).

(** The entry of a position hit [h] times. *)
Definition hit_entry (binary : bool) (h : nat) : float :=
  if binary then (if (0 <? h)%nat then fone else fzero) else of_nat h.

(** 1 for a positive number, 0 otherwise. *)
Definition clamp (x : float) : float :=
  if flt fzero x then fone else fzero.

Fixpoint zip_add (a b : list float) : list float :=
  match a, b with
  | x :: a', y :: b' => fadd x y :: zip_add a' b'
  | _, _ => []
  end.

(** A finite scalar; a finite positive one. *)
Definition is_finite (x : float) : Prop :=
  match x with
  | Fin _ => True
  | _ => False
  end.

Definition finite_pos (x : float) : Prop :=
  match x with
  | Fin r => 0 < r
  | _ => False
  end.

(** The range of the data on which the properties that depend on the size
    of numbers are stated.  In [float32] a smoothing parameter below the
    spacing of the counts is absorbed by them, and quotients and sums leave
    the representable range; with word counts, sizes and a smoothing
    parameter between [2^-20] and [2^20] none of this happens, and the
    exact scalars of this model differ from those of the program by
    rounding only. *)
Definition range_bound : R := 1048576.

Definition moderate (d : R) : Prop := / range_bound <= d <= range_bound.

(** A vector of word counts, and a matrix of such rows. *)
Definition count_entry (x : float) : Prop :=
  exists k : nat, x = of_nat k /\ INR k <= range_bound.

Definition count_vector (v : list float) : Prop := Forall count_entry v.

Definition count_matrix (X : Matrix) : Prop :=
  Forall count_vector (mrows X) /\
  INR (length (mrows X)) <= range_bound /\
  INR (ncols X) <= range_bound.

(** The prior and the conditional probabilities that [fit] stores for
    class [c], and its log-posterior for a feature vector. *)
Definition prior_of (labels : list nat) (c : nat) : float :=
  Fin (INR (count_occ Nat.eq_dec labels c) / INR (length labels)).

Definition cond_of (X : Matrix) (labels : list nat) (delta : float) (c : nat)
  : list float :=
  map (spec_smoothed X labels delta c) (seq 0 (ncols X)).

Definition posterior_of (X : Matrix) (labels : list nat) (delta : float)
    (feature : list float) (c : nat) : float :=
  spec_log_posterior (prior_of labels c) (cond_of X labels delta c) feature.

(** ** The reader of data_processing.py *)

(** [s.split(sep)] for a separator of one character: the pieces between
    the separators, at least one piece. *)
Fixpoint split_on (sep : Ascii.ascii) (s : string) : list string :=
  match s with
  | EmptyString => [EmptyString]
  | String c s' =>
      if Ascii.eqb c sep then EmptyString :: split_on sep s'
      else match split_on sep s' with
           | piece :: pieces => String c piece :: pieces
           | [] => [String c EmptyString]
           end
  end.

(** The character occurs in the string. *)
Fixpoint has_char (c : Ascii.ascii) (s : string) : bool :=
  match s with
  | EmptyString => false
  | String c' s' => Ascii.eqb c' c || has_char c s'
  end.

Definition tab : Ascii.ascii := Ascii.ascii_of_nat 9.

Section Reader.
(** The builtins [str.strip] and [int] (with [None] for [ValueError]) and
    the function [tokenize] of [src/utils.py], which is not among the
    sources, are parameters. *)
Variable strip : string -> string.
Variable int : string -> option Z.
Variable tokenize : string -> list string.

(** The body of the loop of [read_sentiment_examples]; the state is the
    list [examples] and the lines printed so far. *)
Definition read_line (st : list SentimentExample * list string)
    (line : string) : list SentimentExample * list string :=
  let '(examples, printed) := st in
  let line := strip line in
  if String.eqb line EmptyString then (examples, printed)
  else
    match split_on tab line with
    | [text; label_str] =>
        match int label_str with
        | Some label =>
            (examples ++ [mkExample (tokenize text) label], printed)
        | None =>
            (examples,
             printed ++ [String.append "Skipping line with invalid label: "
                                       line])
        end
    | _ =>
        (examples,
         printed ++ [String.append "Skipping malformed line: " line])
    end.

(** [read_sentiment_examples] on the lines that iterating over the file
    yields: the examples returned and the lines printed. *)
Definition read_sentiment_examples (lines : list string)
  : list SentimentExample * list string :=
  fold_left read_line lines ([], []).

(** The line is empty once stripped. *)
Definition blank (line : string) : bool :=
  String.eqb (strip line) EmptyString.

(** The example a line gives, if it gives one. *)
Definition parse_line (line : string) : option SentimentExample :=
  let line := strip line in
  if String.eqb line EmptyString then None
  else
    match split_on tab line with
    | [text; label_str] =>
        match int label_str with
        | Some label => Some (mkExample (tokenize text) label)
        | None => None
        end
    | _ => None
    end.
End Reader.

Local Close Scope R_scope.

(** * Properties *)

(** ** Scalars *)

Lemma Reqb_true x y : x = y -> Reqb x y = true.
Proof. intros H. unfold Reqb. destruct (Req_EM_T x y); congruence. Qed.

Lemma Reqb_false x y : x <> y -> Reqb x y = false.
Proof. intros H. unfold Reqb. destruct (Req_EM_T x y); congruence. Qed.

Lemma Rltb_true x y : (x < y)%R -> Rltb x y = true.
Proof.
  intros H. unfold Rltb.
  destruct (Rlt_dec x y); [reflexivity | contradiction].
Qed.

Lemma Rltb_false x y : (y <= x)%R -> Rltb x y = false.
Proof. intros H. unfold Rltb. destruct (Rlt_dec x y); [lra | reflexivity]. Qed.

Lemma Rltb_spec x y : Rltb x y = true <-> (x < y)%R.
Proof. unfold Rltb. destruct (Rlt_dec x y); split; intros; try easy. Qed.

Lemma fdiv_Fin a b : b <> 0%R -> fdiv (Fin a) (Fin b) = Fin (a / b).
Proof. intros H. unfold fdiv. now rewrite Reqb_false. Qed.

Lemma flog_Fin a : (0 < a)%R -> flog (Fin a) = Fin (ln a).
Proof.
  intros H. unfold flog. rewrite Reqb_false by lra. now rewrite Rltb_true.
Qed.

Lemma flog_zero : flog (Fin 0) = NInf.
Proof. unfold flog. now rewrite Reqb_true. Qed.

Lemma fmul_zero_l r : fmul (Fin 0) (Fin r) = Fin 0.
Proof. simpl. f_equal. lra. Qed.

Lemma fadd_zero_l x : fadd fzero x = x.
Proof. destruct x; simpl; try reflexivity. f_equal. lra. Qed.

Lemma fadd_comm x y : fadd x y = fadd y x.
Proof. destruct x, y; simpl; try reflexivity. f_equal. lra. Qed.

Lemma fadd_assoc x y z : fadd x (fadd y z) = fadd (fadd x y) z.
Proof. destruct x, y, z; simpl; try reflexivity. f_equal. lra. Qed.

Lemma tsum_Fin (l : list R) : tsum (map Fin l) = Fin (Rsum l).
Proof.
  unfold tsum.
  induction l as [|x l IH]; simpl; [reflexivity|].
  now rewrite IH.
Qed.

Lemma Rsum_scale (k : R) (l : list R) :
  Rsum (map (fun x => x * k)%R l) = (Rsum l * k)%R.
Proof.
  induction l as [|x l IH]; simpl; [lra|]. rewrite IH. lra.
Qed.

Lemma Rsum_INR (l : list nat) :
  Rsum (map INR l) = INR (fold_right Nat.add 0 l).
Proof.
  induction l as [|x l IH]; simpl; [reflexivity|].
  rewrite IH, plus_INR. reflexivity.
Qed.

(** ** Class counts *)

Lemma list_max_nat_ge (l : list nat) x : In x l -> x <= list_max_nat l.
Proof.
  induction l as [|y l IH]; simpl; [easy|].
  intros [->|H]; [lia|]. specialize (IH H). lia.
Qed.

Lemma sum_indicator (a M : nat) :
  a < M ->
  fold_right Nat.add 0
    (map (fun c => if Nat.eq_dec a c then 1 else 0) (seq 0 M)) = 1.
Proof.
  intros H.
  assert (G : forall n s, fold_right Nat.add 0
              (map (fun c => if Nat.eq_dec a c then 1 else 0) (seq s n))
            = if (s <=? a) && (a <? s + n) then 1 else 0).
  { induction n as [|n IH]; intros s; simpl.
    - destruct (s <=? a) eqn:E1, (a <? s + 0) eqn:E2; simpl; try reflexivity.
      apply Nat.leb_le in E1. apply Nat.ltb_lt in E2. lia.
    - rewrite IH. destruct (Nat.eq_dec a s) as [->|Hne].
      + replace (S s <=? s) with false by (symmetry; apply Nat.leb_gt; lia).
        replace (s <=? s) with true by (symmetry; apply Nat.leb_le; lia).
        replace (s <? s + S n) with true by (symmetry; apply Nat.ltb_lt; lia).
        reflexivity.
      + destruct (S s <=? a) eqn:E1, (s <=? a) eqn:E3;
          destruct (a <? S s + n) eqn:E2, (a <? s + S n) eqn:E4; simpl;
          try reflexivity;
          repeat match goal with
                 | H : (_ <=? _) = true |- _ => apply Nat.leb_le in H
                 | H : (_ <=? _) = false |- _ => apply Nat.leb_gt in H
                 | H : (_ <? _) = true |- _ => apply Nat.ltb_lt in H
                 | H : (_ <? _) = false |- _ => apply Nat.ltb_ge in H
                 end; lia. }
  rewrite G. simpl.
  replace (a <? M) with true by (symmetry; apply Nat.ltb_lt; lia).
  reflexivity.
Qed.

Lemma sum_pointwise_add (f g : nat -> nat) (l : list nat) :
  fold_right Nat.add 0 (map (fun c => f c + g c) l)
  = fold_right Nat.add 0 (map f l) + fold_right Nat.add 0 (map g l).
Proof. induction l as [|x l IH]; simpl; [reflexivity|]. rewrite IH. lia. Qed.

Lemma sum_zero (l : list nat) :
  fold_right Nat.add 0 (map (fun _ => 0) l) = 0.
Proof. induction l; simpl; auto. Qed.

(** Every label falls in exactly one bin. *)
Lemma sum_count_occ (labels : list nat) (M : nat) :
  (forall x, In x labels -> x < M) ->
  fold_right Nat.add 0
    (map (count_occ Nat.eq_dec labels) (seq 0 M)) = length labels.
Proof.
  induction labels as [|a l IH]; intros Hb; simpl.
  - apply sum_zero.
  - rewrite (map_ext _ (fun c => (if Nat.eq_dec a c then 1 else 0)
                                 + count_occ Nat.eq_dec l c)).
    + rewrite sum_pointwise_add.
      rewrite sum_indicator by (apply Hb; now left).
      rewrite IH; [reflexivity|]. intros x Hx. apply Hb. now right.
    + intros c. destruct (Nat.eq_dec a c); reflexivity.
Qed.

Lemma bincount_nonempty (labels : list nat) :
  labels <> [] ->
  bincount labels
  = map (count_occ Nat.eq_dec labels) (seq 0 (S (list_max_nat labels))).
Proof. destruct labels; [congruence | reflexivity]. Qed.

Lemma length_nonempty {A} (l : list A) : l <> [] -> INR (length l) <> 0%R.
Proof.
  intros H. apply not_0_INR. destruct l; [congruence | discriminate].
Qed.

(** With at least one label the priors are finite: the class counts divided
    by the number of examples. *)
Lemma estimate_class_priors_Fin (labels : list nat) :
  labels <> [] ->
  estimate_class_priors labels
  = map Fin (map (fun x => x * / INR (length labels))%R
                 (map INR (bincount labels))).
Proof.
  intros H. unfold estimate_class_priors.
  rewrite !map_map. apply map_ext. intros count.
  unfold of_nat. rewrite fdiv_Fin by now apply length_nonempty.
  reflexivity.
Qed.

Lemma fit_sets_class_priors self X labels delta :
  class_priors (fst (fit self X labels delta))
  = Some (estimate_class_priors labels).
Proof.
  unfold fit.
  destruct (estimate_conditional_probabilities X labels delta); reflexivity.
Qed.

Lemma estimate_class_priors_lookup (labels : list nat) (c : nat) :
  labels <> [] -> c <= list_max_nat labels ->
  estimate_class_priors labels !! c
  = Some (Fin (INR (count_occ Nat.eq_dec labels c) / INR (length labels))).
Proof.
  intros Hne Hc. unfold estimate_class_priors.
  rewrite bincount_nonempty by assumption.
  rewrite !list_lookup_fmap.
  rewrite lookup_seq_lt by lia. simpl.
  unfold of_nat. rewrite fdiv_Fin by now apply length_nonempty.
  reflexivity.
Qed.

(** C3.  For a non-empty label vector, [fit] stores one prior per class of
    [0 .. max(label)]; the prior of class [c] is the number of examples
    labelled [c] divided by the number of examples; the priors sum to 1;
    a class of that range without example has prior 0. *)
Theorem fit_class_priors self X (labels : list nat) delta :
  labels <> [] ->
  exists priors : list float,
    class_priors (fst (fit self X labels delta)) = Some priors /\
    length priors = S (list_max_nat labels) /\
    (forall c, c <= list_max_nat labels ->
       priors !! c
       = Some (Fin (INR (count_occ Nat.eq_dec labels c)
                    / INR (length labels)))) /\
    tsum priors = Fin 1 /\
    (forall c, c <= list_max_nat labels ->
       count_occ Nat.eq_dec labels c = 0 -> priors !! c = Some (Fin 0)).
Proof.
  intros Hne. exists (estimate_class_priors labels).
  split; [apply fit_sets_class_priors|].
  split.
  { unfold estimate_class_priors. rewrite bincount_nonempty by assumption.
    now rewrite !length_map, length_seq. }
  split; [intros c Hc; now apply estimate_class_priors_lookup|].
  split.
  - rewrite estimate_class_priors_Fin by assumption.
    rewrite tsum_Fin, Rsum_scale, Rsum_INR.
    rewrite bincount_nonempty by assumption.
    rewrite sum_count_occ.
    + f_equal. apply Rinv_r. now apply length_nonempty.
    + intros x Hx. apply list_max_nat_ge in Hx. lia.
  - intros c Hc H0. rewrite estimate_class_priors_lookup by assumption.
    rewrite H0. simpl. do 2 f_equal. unfold Rdiv. apply Rmult_0_l.
Qed.

Lemma fit_class_priors_witness :
  exists priors : list float,
    class_priors (fst (fit init (mkMatrix 1 [[fone]; [fzero]; [fone]])
                           [0; 2; 2] fone)) = Some priors /\
    length priors = 3 /\
    (forall c, c <= 2 ->
       priors !! c
       = Some (Fin (INR (count_occ Nat.eq_dec [0; 2; 2] c) / INR 3))) /\
    tsum priors = Fin 1 /\
    (forall c, c <= 2 ->
       count_occ Nat.eq_dec [0; 2; 2] c = 0 -> priors !! c = Some (Fin 0)).
Proof.
  apply (fit_class_priors init (mkMatrix 1 [[fone]; [fzero]; [fone]])
           [0; 2; 2] fone).
  discriminate.
Defined.

(** ** Loops *)

Lemma for_each_ok {A B} (body : A -> result B) (g : A -> B) (l : list A) :
  (forall a, In a l -> body a = Ok (g a)) ->
  for_each body l = Ok (map g l).
Proof.
  induction l as [|a l IH]; intros H; simpl; [reflexivity|].
  rewrite H by now left. simpl.
  rewrite IH by (intros; apply H; now right). reflexivity.
Qed.

Lemma for_each_raise {A B} (body : A -> result B) (e : exn) (a : A)
    (l : list A) :
  body a = Raise e -> for_each body (a :: l) = Raise e.
Proof. intros H. simpl. now rewrite H. Qed.

(** ** Conditional probabilities *)

Lemma masked_filter rows (labels : list nat) c :
  masked rows labels c
  = map fst (List.filter (fun example => snd example =? c)
                         (combine rows labels)).
Proof.
  revert labels. induction rows as [|r rows IH]; intros [|l labels]; simpl;
    try reflexivity.
  rewrite IH. destruct (l =? c); reflexivity.
Qed.

Lemma sum_dim0_lookup cols rows w :
  w < cols ->
  sum_dim0 cols rows !! w = Some (tsum (map (fun r => nth w r fzero) rows)).
Proof.
  intros H. unfold sum_dim0. rewrite list_lookup_fmap.
  now rewrite lookup_seq_lt.
Qed.

Lemma word_count_is_count X labels c w :
  tsum (map (fun r => nth w r fzero) (masked (mrows X) labels c))
  = spec_count X labels c w.
Proof. unfold spec_count. now rewrite masked_filter, map_map. Qed.

Lemma sum_dim0_counts X labels c :
  sum_dim0 (ncols X) (masked (mrows X) labels c)
  = map (spec_count X labels c) (seq 0 (ncols X)).
Proof.
  unfold sum_dim0. apply map_ext. intros w. apply word_count_is_count.
Qed.

(** What [estimate_conditional_probabilities] returns on a training set
    with at least one example and one label per row. *)
Lemma estimate_conditional_probabilities_ok X labels delta :
  labels <> [] -> length labels = length (mrows X) ->
  estimate_conditional_probabilities X labels delta
  = Ok (map (fun c => map (spec_smoothed X labels delta c) (seq 0 (ncols X)))
            (seq 0 (S (list_max_nat labels)))).
Proof.
  intros Hne Hlen. unfold estimate_conditional_probabilities.
  assert (Hmax : tmax labels = Ok (list_max_nat labels))
    by (destruct labels; [congruence | reflexivity]).
  rewrite Hmax. cbn [bind].
  rewrite (for_each_ok _ (fun c => sum_dim0 (ncols X)
                                     (masked (mrows X) labels c))).
  - cbn [bind]. f_equal. rewrite map_map. apply map_ext. intros c.
    rewrite sum_dim0_counts, map_map. reflexivity.
  - intros c _. unfold select_rows.
    rewrite (proj2 (Nat.eqb_eq _ _) Hlen). reflexivity.
Qed.

Lemma estimate_conditional_probabilities_empty X delta :
  estimate_conditional_probabilities X [] delta = Raise RuntimeError.
Proof. reflexivity. Qed.

Lemma estimate_conditional_probabilities_mask X labels delta :
  labels <> [] -> length labels <> length (mrows X) ->
  estimate_conditional_probabilities X labels delta = Raise IndexError.
Proof.
  intros Hne Hlen. unfold estimate_conditional_probabilities.
  assert (Hmax : tmax labels = Ok (list_max_nat labels))
    by (destruct labels; [congruence | reflexivity]).
  rewrite Hmax. cbn [bind]. cbn [seq].
  erewrite for_each_raise; [reflexivity|].
  unfold select_rows. rewrite (proj2 (Nat.eqb_neq _ _) Hlen). reflexivity.
Qed.

(** [fit] on such a training set raises nothing and sets the three
    attributes. *)
Lemma fit_ok self X labels delta :
  labels <> [] -> length labels = length (mrows X) ->
  fit self X labels delta
  = ({| class_priors := Some (estimate_class_priors labels);
        conditional_probabilities :=
          Some (map (fun c => map (spec_smoothed X labels delta c)
                                  (seq 0 (ncols X)))
                    (seq 0 (S (list_max_nat labels))));
        vocab_size := Some (ncols X) |}, Ok tt).
Proof.
  intros Hne Hlen. unfold fit.
  now rewrite estimate_conditional_probabilities_ok.
Qed.

(** A call of [fit] that raises nothing was given such a training set. *)
Lemma fit_ok_inv self X labels delta m :
  fit self X labels delta = (m, Ok tt) ->
  labels <> [] /\ length labels = length (mrows X).
Proof.
  intros H. unfold fit in H.
  destruct labels as [|l labels].
  - rewrite estimate_conditional_probabilities_empty in H. discriminate.
  - split; [discriminate|].
    destruct (Nat.eq_dec (length (l :: labels)) (length (mrows X)))
      as [E|E]; [exact E|].
    rewrite estimate_conditional_probabilities_mask in H by easy.
    discriminate.
Qed.

Lemma finite_nonneg_inv x :
  finite_nonneg x -> x = Fin (to_R x) /\ (0 <= to_R x)%R.
Proof. destruct x; simpl; intros H; try contradiction. auto. Qed.

Lemma tsum_finite_nonneg (l : list float) :
  Forall finite_nonneg l -> finite_nonneg (tsum l).
Proof.
  unfold tsum. induction 1 as [|x l Hx _ IH]; simpl; [lra|].
  destruct x; simpl in Hx; try contradiction.
  destruct (foldr fadd fzero l); simpl in IH; try contradiction.
  simpl. lra.
Qed.

Lemma nth_finite_nonneg (r : list float) w :
  Forall finite_nonneg r -> finite_nonneg (nth w r fzero).
Proof.
  intros H. revert w. induction H as [|x r Hx _ IH]; intros [|w]; simpl;
    auto; lra.
Qed.

Lemma count_finite_nonneg X labels c w :
  nonneg_matrix X -> finite_nonneg (spec_count X labels c w).
Proof.
  intros HX. unfold spec_count. apply tsum_finite_nonneg.
  apply List.Forall_forall. intros x Hx.
  apply in_map_iff in Hx as [[r l] [<- Hin]].
  apply filter_In in Hin as [Hin _]. apply in_combine_l in Hin.
  apply nth_finite_nonneg. simpl.
  unfold nonneg_matrix in HX. rewrite List.Forall_forall in HX.
  now apply HX.
Qed.

Lemma Rsum_nonneg (l : list R) :
  Forall (fun r => 0 <= r)%R l -> (0 <= Rsum l)%R.
Proof. induction 1; simpl; lra. Qed.

Lemma tsum_to_R (l : list float) :
  Forall finite_nonneg l -> tsum l = Fin (Rsum (map to_R l)).
Proof.
  intros H. rewrite <- tsum_Fin, map_map. f_equal.
  induction H as [|x l Hx _ IH]; simpl; [reflexivity|].
  rewrite <- IH. f_equal. now apply finite_nonneg_inv.
Qed.

Lemma Rsum_shift (d : R) (l : list R) :
  Rsum (map (fun r => r + d)%R l) = (Rsum l + d * INR (length l))%R.
Proof.
  induction l as [|x l IH]; [simpl; lra|].
  cbn [map Rsum fold_right length]. fold (Rsum (map (fun r => r + d)%R l)).
  fold (Rsum l). rewrite IH, S_INR. lra.
Qed.

Section Smoothing.
Variables (X : Matrix) (labels : list nat) (d : R) (c : nat).
Hypothesis HX : nonneg_matrix X.
Hypothesis Hd : (0 < d)%R.

Local Abbreviation total := (class_total X labels c).
Local Abbreviation denom := (class_denom X labels d c).

Lemma total_nonneg : (0 <= total)%R.
Proof.
  apply Rsum_nonneg. rewrite !Forall_map. apply List.Forall_forall.
  intros w _.
  now apply finite_nonneg_inv, count_finite_nonneg.
Qed.

Lemma smoothed_Fin w :
  0 < ncols X ->
  spec_smoothed X labels (Fin d) c w
  = Fin ((to_R (spec_count X labels c w) + d) / denom).
Proof.
  intros HV. unfold spec_smoothed.
  destruct (finite_nonneg_inv _ (count_finite_nonneg X labels c w HX))
    as [-> _].
  rewrite tsum_to_R.
  - cbn [fadd fmul of_nat]. rewrite fdiv_Fin; [reflexivity|].
    pose proof total_nonneg.
    assert (0 < INR (ncols X))%R by now apply lt_0_INR.
    assert (0 < d * INR (ncols X))%R by now apply Rmult_lt_0_compat.
    fold total. unfold class_denom. lra.
  - rewrite Forall_map. apply List.Forall_forall. intros w' _.
    now apply count_finite_nonneg.
Qed.

Lemma denom_pos : 0 < ncols X -> (0 < denom)%R.
Proof.
  intros HV. pose proof total_nonneg.
  assert (0 < INR (ncols X))%R by now apply lt_0_INR.
  assert (0 < d * INR (ncols X))%R by now apply Rmult_lt_0_compat.
  unfold class_denom. lra.
Qed.

Lemma smoothed_pos w :
  w < ncols X ->
  exists p, spec_smoothed X labels (Fin d) c w = Fin p /\ (0 < p)%R.
Proof.
  intros Hw. assert (HV : 0 < ncols X) by lia.
  eexists. split; [now apply smoothed_Fin|].
  pose proof (denom_pos HV).
  destruct (finite_nonneg_inv _ (count_finite_nonneg X labels c w HX))
    as [_ Hr].
  apply Rdiv_lt_0_compat; lra.
Qed.

Lemma smoothed_sum :
  0 < ncols X ->
  tsum (map (spec_smoothed X labels (Fin d) c) (seq 0 (ncols X))) = Fin 1.
Proof.
  intros HV.
  rewrite (map_ext _ (fun w => Fin ((to_R (spec_count X labels c w) + d)
                                    * / denom)))
    by (intros w; now apply smoothed_Fin).
  rewrite <- (map_map
                (fun w => (to_R (spec_count X labels c w) + d) * / denom)%R
                Fin).
  rewrite tsum_Fin.
  rewrite <- (map_map (fun w => to_R (spec_count X labels c w) + d)%R
                      (fun r => r * / denom)%R).
  rewrite Rsum_scale.
  rewrite <- (map_map (fun w => to_R (spec_count X labels c w))
                      (fun r => r + d)%R).
  rewrite Rsum_shift, length_map, length_seq.
  rewrite <- (map_map (spec_count X labels c) to_R). fold total. fold denom.
  f_equal. apply Rinv_r. pose proof (denom_pos HV). lra.
Qed.
End Smoothing.

Lemma moderate_pos (d : R) : moderate d -> (0 < d)%R.
Proof.
  unfold moderate, range_bound. intros [H _].
  assert (0 < / 1048576)%R by (apply Rinv_0_lt_compat; lra). lra.
Qed.

Lemma count_entry_nonneg (x : float) : count_entry x -> finite_nonneg x.
Proof. intros (k & -> & _). simpl. apply pos_INR. Qed.

Lemma count_matrix_nonneg (X : Matrix) : count_matrix X -> nonneg_matrix X.
Proof.
  intros [H _]. unfold nonneg_matrix.
  apply (List.Forall_impl _ (P := count_vector)); [|exact H].
  intros r Hr. apply (List.Forall_impl _ (P := count_entry)); [|exact Hr].
  exact count_entry_nonneg.
Qed.

Lemma count_vector_finite (v : list float) :
  count_vector v -> Forall is_finite v.
Proof.
  apply List.Forall_impl. now intros x (k & -> & _).
Qed.

(** C2, as the code has it.  On a training set of word counts (a tensor of
    features, one label per row, at least one example) and for a smoothing
    parameter that is 0 or of moderate size, [fit] raises nothing and
    stores, for each class [c] of [0 .. max(label)], a vector with one
    entry per word [w], equal to
    [(count(c,w) + delta) / (sum_w count(c,w) + delta * vocab_size)].
    When [delta] is not 0, every such probability is strictly positive
    and, when the vocabulary is not empty, the probabilities of each class
    sum to 1. *)
Theorem fit_conditional_probabilities self X (labels : list nat) (d : R) :
  matrix_wf X -> labels <> [] -> length labels = length (mrows X) ->
  count_matrix X -> d = 0%R \/ moderate d ->
  exists m (cond : list (list float)),
    fit self X labels (Fin d) = (m, Ok tt) /\
    conditional_probabilities m = Some cond /\
    length cond = S (list_max_nat labels) /\
    forall c, c <= list_max_nat labels ->
      exists cond_c : list float,
        cond !! c = Some cond_c /\
        length cond_c = ncols X /\
        (forall w, w < ncols X ->
           cond_c !! w = Some (spec_smoothed X labels (Fin d) c w)) /\
        (moderate d ->
           forall w, w < ncols X ->
             exists p, cond_c !! w = Some (Fin p) /\ (0 < p)%R) /\
        (moderate d -> 0 < ncols X -> tsum cond_c = Fin 1).
Proof.
  intros _ Hne Hlen HX' _. pose proof (count_matrix_nonneg X HX') as HX.
  eexists _, _.
  split; [now apply fit_ok|]. split; [reflexivity|].
  split; [now rewrite length_map, length_seq|].
  intros c Hc.
  exists (map (spec_smoothed X labels (Fin d) c) (seq 0 (ncols X))).
  assert (Hw : forall w, w < ncols X ->
             map (spec_smoothed X labels (Fin d) c) (seq 0 (ncols X)) !! w
             = Some (spec_smoothed X labels (Fin d) c w)).
  { intros w Hw. rewrite list_lookup_fmap, lookup_seq_lt by lia.
    reflexivity. }
  split.
  { rewrite list_lookup_fmap, lookup_seq_lt by lia. reflexivity. }
  split; [now rewrite length_map, length_seq|].
  split; [exact Hw|]. split.
  - intros Hd w Hlt. apply moderate_pos in Hd. rewrite Hw by assumption.
    destruct (smoothed_pos X labels d c HX Hd w Hlt) as [p [-> Hp]].
    now exists p.
  - intros Hd HV. apply moderate_pos in Hd. now apply smoothed_sum.
Qed.

Lemma count_matrix_example :
  count_matrix (mkMatrix 2 [[fone; fzero]; [fzero; fone]]).
Proof.
  unfold count_matrix, count_vector, count_entry, range_bound, fone, fzero.
  cbn [mrows ncols length].
  split; [|split; simpl; lra].
  repeat constructor;
    first [ exists 1; split; [reflexivity | simpl; lra]
          | exists 0; split; [reflexivity | simpl; lra] ].
Qed.

Lemma moderate_one : moderate 1.
Proof. unfold moderate, range_bound. lra. Qed.

Lemma fit_conditional_probabilities_witness :
  exists m (cond : list (list float)),
    fit init (mkMatrix 2 [[fone; fzero]; [fzero; fone]]) [1; 0] (Fin 1)
    = (m, Ok tt) /\
    conditional_probabilities m = Some cond /\
    length cond = 2 /\
    forall c, c <= 1 ->
      exists cond_c : list float,
        cond !! c = Some cond_c /\
        length cond_c = 2 /\
        (forall w, w < 2 ->
           cond_c !! w
           = Some (spec_smoothed (mkMatrix 2 [[fone; fzero]; [fzero; fone]])
                            [1; 0] (Fin 1) c w)) /\
        (forall w, w < 2 ->
           exists p, cond_c !! w = Some (Fin p) /\ (0 < p)%R) /\
        tsum cond_c = Fin 1.
Proof.
  destruct (fit_conditional_probabilities init
              (mkMatrix 2 [[fone; fzero]; [fzero; fone]]) [1; 0] 1)
    as (m & cond & Hfit & Hcond & Hlen & H).
  - repeat constructor.
  - discriminate.
  - reflexivity.
  - exact count_matrix_example.
  - right. exact moderate_one.
  - exists m, cond. repeat split; try assumption.
    intros c Hc. destruct (H c Hc) as (cond_c & H1 & H2 & H3 & H4 & H5).
    exists cond_c. repeat split; try assumption.
    + apply H4. exact moderate_one.
    + apply H5; [exact moderate_one | apply Nat.lt_0_succ].
Defined.

(** C2 as stated fails on an empty vocabulary: one example, no column,
    [delta = 1]; the vector of class 0 is empty and its sum is 0.  It
    needs non-negative features too: on the single example [[-3, 0]] with
    [delta = 1] the counts are [[-3, 0]], the denominator is [-3 + 2], and
    the probability of the second word is [1 / -1]. *)
Lemma smoothing_counterexamples :
  (exists m cond_0,
     fit init (mkMatrix 0 [[]]) [0] (Fin 1) = (m, Ok tt) /\
     conditional_probabilities m = Some [cond_0] /\
     tsum cond_0 <> Fin 1) /\
  (exists m p0 p1,
     fit init (mkMatrix 2 [[Fin (-3); Fin 0]]) [0] (Fin 1) = (m, Ok tt) /\
     conditional_probabilities m = Some [[Fin p0; Fin p1]] /\
     (p1 < 0)%R).
Proof.
  split.
  - eexists _, _. split; [reflexivity|]. split; [reflexivity|].
    simpl. intros H. injection H. lra.
  - exists {| class_priors := Some (estimate_class_priors [0]);
              conditional_probabilities := Some [[Fin 2; Fin (-1)]];
              vocab_size := Some 2 |}, 2%R, (-1)%R.
    split; [|split; [reflexivity | lra]].
    rewrite fit_ok by (discriminate || reflexivity).
    unfold spec_smoothed, spec_count, of_nat. cbn -[fdiv estimate_class_priors].
    rewrite !fdiv_Fin by lra.
    repeat f_equal; field.
Qed.

(** ** Bag of words *)

Lemma for_fold_app {S A} (body : S -> A -> result S) (l l' : list A) (s : S) :
  for_fold body (l ++ l') s
  = try s' <- for_fold body l s in for_fold body l' s'.
Proof.
  revert s. induction l as [|a l IH]; intros s; simpl; [reflexivity|].
  destruct (body s a); simpl; [apply IH | reflexivity].
Qed.

Lemma py_index_in_range (n : nat) (i : Z) :
  (0 <= i < Z.of_nat n)%Z -> py_index n i = Ok (Z.to_nat i).
Proof.
  intros [H1 H2]. unfold py_index.
  rewrite (proj2 (Z.leb_le _ _) H1), (proj2 (Z.ltb_lt _ _) H2).
  reflexivity.
Qed.

Lemma of_nat_succ k : fadd (of_nat k) fone = of_nat (S k).
Proof. unfold of_nat, fone. simpl fadd. now rewrite S_INR. Qed.

Lemma bow_entry_snoc_other binary text a t :
  t <> a ->
  spec_bow_entry binary (text ++ [a]) t = spec_bow_entry binary text t.
Proof.
  intros Hne. unfold spec_bow_entry. destruct binary.
  - assert (E : bool_decide (t ∈ text ++ [a]) = bool_decide (t ∈ text)).
    { apply bool_decide_ext. rewrite elem_of_app, list_elem_of_singleton.
      tauto. }
    now rewrite E.
  - rewrite count_occ_app. simpl.
    destruct (String.string_dec a t); [congruence|]. f_equal. lia.
Qed.

Lemma bow_entry_snoc_same binary text a :
  spec_bow_entry binary (text ++ [a]) a
  = if binary then fone else fadd (spec_bow_entry false text a) fone.
Proof.
  unfold spec_bow_entry. destruct binary.
  - rewrite bool_decide_eq_true_2; [reflexivity|].
    apply elem_of_app. right. now apply list_elem_of_singleton.
  - rewrite of_nat_succ, count_occ_app. simpl.
    destruct (String.string_dec a a); [|congruence]. f_equal. lia.
Qed.

(** The loop of [bag_of_words] on a well-formed vocabulary: no exception,
    and after each token the vector holds the entries of the tokens read. *)
Lemma bag_of_words_loop (vocab : gmap string Z) binary (text : list string) :
  vocab_wf vocab ->
  exists v : list float,
    bag_of_words text vocab binary = Ok v /\
    length v = size vocab /\
    (forall t i, vocab !! t = Some i ->
       v !! Z.to_nat i = Some (spec_bow_entry binary text t)) /\
    (forall j x, v !! j = Some x ->
       exists k, x = of_nat k /\ (binary = true -> k <= 1)).
Proof.
  intros [Hrange Hinj]. unfold bag_of_words.
  induction text as [|a text IH] using rev_ind.
  - exists (zeros (size vocab)). simpl.
    split; [reflexivity|]. split; [apply length_replicate|]. split.
    + intros t i Hi. specialize (Hrange t i Hi). unfold zeros.
      rewrite lookup_replicate_2 by lia.
      unfold spec_bow_entry. destruct binary; [|reflexivity].
      rewrite bool_decide_eq_false_2; [reflexivity | apply not_elem_of_nil].
    + intros j x Hj. apply lookup_replicate in Hj as [-> _].
      exists 0. split; [reflexivity | lia].
  - destruct IH as (v & Hv & Hlen & Hent & Hnat).
    rewrite for_fold_app, Hv. cbn [bind for_fold]. unfold bow_step.
    destruct (vocab !! a) as [ia|] eqn:Ha.
    + pose proof (Hrange a ia Ha) as Hia.
      rewrite py_index_in_range by (rewrite Hlen; exact Hia).
      cbn [bind].
      assert (Hlt : Z.to_nat ia < length v) by lia.
      assert (Hother : forall t i, vocab !! t = Some i -> t <> a ->
                Z.to_nat ia <> Z.to_nat i).
      { intros t i Hi Hne E. apply Hne.
        pose proof (Hrange t i Hi).
        assert (i = ia) by lia. subst i. now apply (Hinj t a ia). }
      destruct binary; eexists; (split; [reflexivity|]).
      * split; [now rewrite length_insert|]. split.
        -- intros t i Hi. destruct (decide (t = a)) as [->|Hne].
           ++ assert (i = ia) by congruence. subst i.
              rewrite list_lookup_insert_eq by assumption.
              now rewrite bow_entry_snoc_same.
           ++ rewrite list_lookup_insert_ne by now apply (Hother t i).
              rewrite bow_entry_snoc_other by assumption. now apply Hent.
        -- intros j x Hj. destruct (decide (Z.to_nat ia = j)) as [<-|Hne].
           ++ rewrite list_lookup_insert_eq in Hj by assumption.
              injection Hj as <-. exists 1. split; [reflexivity | lia].
           ++ rewrite list_lookup_insert_ne in Hj by assumption.
              now apply (Hnat j).
      * split; [now rewrite length_alter|]. split.
        -- intros t i Hi. destruct (decide (t = a)) as [->|Hne].
           ++ assert (i = ia) by congruence. subst i.
              rewrite list_lookup_alter_eq, (Hent a ia Ha).
              now rewrite bow_entry_snoc_same.
           ++ rewrite list_lookup_alter_ne by now apply (Hother t i).
              rewrite bow_entry_snoc_other by assumption. now apply Hent.
        -- intros j x Hj. destruct (decide (Z.to_nat ia = j)) as [<-|Hne].
           ++ rewrite list_lookup_alter_eq, (Hent a ia Ha) in Hj.
              cbn [fmap option_fmap option_map] in Hj.
              injection Hj as <-.
              exists (S (count_occ String.string_dec text a)).
              split; [unfold of_nat; now rewrite S_INR | discriminate].
           ++ rewrite list_lookup_alter_ne in Hj by assumption.
              now apply (Hnat j).
    + exists v. split; [reflexivity|]. split; [assumption|]. split.
      * intros t i Hi. rewrite bow_entry_snoc_other by congruence.
        now apply Hent.
      * assumption.
Qed.

(** A token that the vocabulary does not know leaves the vector as it is,
    whatever the vocabulary. *)
Lemma bag_of_words_skips_unknown (vocab : gmap string Z) binary text :
  bag_of_words text vocab binary
  = bag_of_words (in_vocabulary vocab text) vocab binary.
Proof.
  unfold bag_of_words. generalize (zeros (size vocab)) as v.
  induction text as [|a text IH]; intros v; [reflexivity|].
  cbn [in_vocabulary List.filter].
  destruct (vocab !! a) as [ia|] eqn:Ha.
  - rewrite bool_decide_eq_true_2 by eauto.
    cbn [for_fold]. destruct (bow_step vocab binary v a); [|reflexivity].
    cbn [bind]. apply IH.
  - rewrite bool_decide_eq_false_2 by (intros [? ?]; discriminate).
    cbn [for_fold]. unfold bow_step at 1. rewrite Ha. cbn [bind]. apply IH.
Qed.

(** ** Vocabulary *)

Lemma add_word_inv st word : vocab_inv st -> vocab_inv (add_word st word).
Proof.
  destruct st as [vocab index]. unfold vocab_inv, add_word. simpl.
  intros (Hsize & Hrange & Hinj).
  destruct (vocab !! word) eqn:Hw; simpl; [auto|].
  split; [rewrite map_size_insert_None by assumption; lia|]. split.
  - intros t i. rewrite lookup_insert. case_decide.
    + intros [= <-]. lia.
    + intros Hi. specialize (Hrange t i Hi). lia.
  - intros t1 t2 i. rewrite !lookup_insert.
    destruct (decide (word = t1)) as [E1|E1],
             (decide (word = t2)) as [E2|E2]; intros H1 H2.
    + congruence.
    + injection H1 as <-. specialize (Hrange t2 index H2). lia.
    + injection H2 as <-. specialize (Hrange t1 index H1). lia.
    + eauto.
Qed.

Lemma add_words_inv ws st :
  vocab_inv st -> vocab_inv (fold_left add_word ws st).
Proof.
  revert st. induction ws as [|w ws IH]; intros st H; simpl; [assumption|].
  apply IH. now apply add_word_inv.
Qed.

(** Every vocabulary that [build_vocab] returns is well formed. *)
Lemma build_vocab_wf examples : vocab_wf (build_vocab examples).
Proof.
  unfold build_vocab.
  assert (H : forall st, vocab_inv st ->
            vocab_inv (fold_left (fun st example =>
                                    fold_left add_word (words example) st)
                                 examples st)).
  { induction examples as [|e es IH]; intros st Hst; simpl; [assumption|].
    apply IH. now apply add_words_inv. }
  specialize (H (∅, 0%Z)).
  destruct H as (Hsize & Hrange & Hinj).
  - unfold vocab_inv. simpl. split; [reflexivity|].
    split; intros *; rewrite lookup_empty; discriminate.
  - split; [|exact Hinj]. intros t i Hi. rewrite <- Hsize.
    exact (Hrange t i Hi).
Qed.

(** C8.  On a vocabulary (distinct indices, all of them positions of the
    vector) [bag_of_words] raises nothing and returns a vector with one
    entry per vocabulary word.  In binary mode the entry of a word is 1
    when the word occurs in the text, however often, and 0 otherwise; in
    count mode it is the number of its occurrences.  Every entry is a
    natural number, 0 or 1 in binary mode.  Tokens that are not in the
    vocabulary change nothing: the text without them gives the same
    vector. *)
Theorem bag_of_words_spec (vocab : gmap string Z) (binary : bool)
    (text : list string) :
  vocab_wf vocab ->
  exists v : list float,
    bag_of_words text vocab binary = Ok v /\
    length v = size vocab /\
    (forall t i, vocab !! t = Some i ->
       v !! Z.to_nat i
       = Some (if binary
               then (if bool_decide (t ∈ text) then Fin 1 else Fin 0)
               else Fin (INR (count_occ String.string_dec text t)))) /\
    (forall j x, v !! j = Some x ->
       exists k, x = Fin (INR k) /\ (binary = true -> k <= 1)) /\
    bag_of_words (in_vocabulary vocab text) vocab binary = Ok v.
Proof.
  intros Hwf.
  destruct (bag_of_words_loop vocab binary text Hwf)
    as (v & Hv & Hlen & Hent & Hnat).
  exists v. split; [assumption|]. split; [assumption|]. split.
  - intros t i Hi. rewrite (Hent t i Hi). unfold spec_bow_entry.
    destruct binary; reflexivity.
  - split; [exact Hnat|]. now rewrite <- bag_of_words_skips_unknown.
Qed.

Lemma bag_of_words_spec_witness :
  vocab_wf (build_vocab scenario_examples) /\
  exists v : list float,
    bag_of_words ["good"; "film"; "good"]%string
                 (build_vocab scenario_examples) true = Ok v /\
    length v = size (build_vocab scenario_examples) /\
    (forall t i, build_vocab scenario_examples !! t = Some i ->
       v !! Z.to_nat i
       = Some (if bool_decide (t ∈ ["good"; "film"; "good"]%string)
               then Fin 1 else Fin 0)) /\
    (forall j x, v !! j = Some x ->
       exists k, x = Fin (INR k) /\ (true = true -> k <= 1)) /\
    bag_of_words (in_vocabulary (build_vocab scenario_examples)
                                ["good"; "film"; "good"]%string)
                 (build_vocab scenario_examples) true = Ok v.
Proof.
  split; [apply build_vocab_wf|].
  apply (bag_of_words_spec (build_vocab scenario_examples) true
           ["good"; "film"; "good"]%string).
  apply build_vocab_wf.
Defined.

(** ** The order of argmax *)

Ltac real_tests :=
  unfold Rltb in *;
  repeat match goal with
         | |- context [Rlt_dec ?a ?b] => destruct (Rlt_dec a b)
         | H : context [Rlt_dec ?a ?b] |- _ => destruct (Rlt_dec a b)
         end.

Lemma torch_gt_ge_trans x b y :
  torch_gt x b = true -> torch_ge b y = true -> torch_gt x y = true.
Proof.
  unfold torch_ge, torch_gt.
  destruct x, b, y; simpl; intros H1 H2; try discriminate; try reflexivity;
    real_tests; simpl in *; try discriminate; try reflexivity; lra.
Qed.

Lemma torch_gt_ge x y : torch_gt x y = true -> torch_ge x y = true.
Proof.
  unfold torch_ge, torch_gt.
  destruct x, y; simpl; intros H; try discriminate; try reflexivity;
    real_tests; simpl in *; try discriminate; try reflexivity; lra.
Qed.

Lemma torch_ge_refl x : torch_ge x x = true.
Proof.
  unfold torch_ge, torch_gt. destruct x; simpl; try reflexivity.
  real_tests; simpl; [lra | reflexivity].
Qed.

(** Without [nan] the order of argmax is the usual one. *)
Lemma torch_ge_flt x y :
  isnan x = false -> isnan y = false ->
  torch_ge x y = negb (flt x y).
Proof. unfold torch_ge, torch_gt. destruct x, y; simpl; easy. Qed.

Lemma torch_gt_flt x y :
  isnan x = false -> isnan y = false ->
  torch_gt x y = flt y x.
Proof. unfold torch_gt. destruct x, y; simpl; easy. Qed.

(** The scan of [argmax]: [best] is the first maximal entry of the prefix
    [pre] read so far, at index [ibest]. *)
Lemma argmax_from_spec (t pre : list float) best ibest :
  pre !! ibest = Some best ->
  (forall j x, pre !! j = Some x -> torch_ge best x = true) ->
  (forall j x, j < ibest -> pre !! j = Some x -> torch_gt best x = true) ->
  let p := argmax_from best ibest (length pre) t in
  exists y, (pre ++ t) !! p = Some y /\
    (forall j x, (pre ++ t) !! j = Some x -> torch_ge y x = true) /\
    (forall j x, j < p -> (pre ++ t) !! j = Some x -> torch_gt y x = true).
Proof.
  revert pre best ibest.
  induction t as [|a t IH]; intros pre best ibest Hb Hge Hgt; simpl.
  - rewrite app_nil_r. eauto.
  - assert (E : pre ++ a :: t = (pre ++ [a]) ++ t)
      by now rewrite <- app_assoc.
    assert (L : S (length pre) = length (pre ++ [a]))
      by (rewrite length_app; simpl; lia).
    rewrite E, L.
    unfold greater_or_nan. fold (torch_gt a best).
    destruct (torch_gt a best) eqn:G.
    + apply IH.
      * rewrite lookup_app_r by lia. now rewrite Nat.sub_diag.
      * intros j x Hj. apply lookup_app_Some in Hj as [Hj|[_ Hj]].
        -- apply torch_gt_ge. eapply torch_gt_ge_trans; eauto.
        -- destruct (j - length pre) as [|k]; simpl in Hj; [|discriminate].
           injection Hj as <-. apply torch_ge_refl.
      * intros j x Hlt Hj. apply lookup_app_Some in Hj as [Hj|[Hle _]];
          [|lia]. eapply torch_gt_ge_trans; eauto.
    + apply IH.
      * apply lookup_app_Some. now left.
      * intros j x Hj. apply lookup_app_Some in Hj as [Hj|[_ Hj]];
          [eauto|].
        destruct (j - length pre) as [|k]; simpl in Hj; [|discriminate].
        injection Hj as <-. unfold torch_ge. now rewrite G.
      * intros j x Hlt Hj. apply lookup_app_Some in Hj as [Hj|[Hle _]];
          [eauto|].
        apply lookup_lt_Some in Hb. lia.
Qed.

(** [argmax] returns the first index of a maximal entry. *)
Lemma argmax_spec (v : list float) :
  v <> [] ->
  exists p y, argmax v = Ok p /\ v !! p = Some y /\
    (forall j x, v !! j = Some x -> torch_ge y x = true) /\
    (forall j x, j < p -> v !! j = Some x -> torch_gt y x = true).
Proof.
  destruct v as [|a t]; [congruence|]. intros _. simpl.
  destruct (argmax_from_spec t [a] a 0) as (y & H1 & H2 & H3).
  - reflexivity.
  - intros [|j] x Hj; simpl in Hj; [|discriminate].
    injection Hj as <-. apply torch_ge_refl.
  - intros j x Hlt. lia.
  - exists (argmax_from a 0 1 t), y. split; [reflexivity|].
    split; [exact H1|]. split; [exact H2 | exact H3].
Qed.

(** ** Inference on a trained model *)

Lemma trained_by_inv m X labels delta :
  trained_by m X labels delta ->
  labels <> [] /\ length labels = length (mrows X) /\
  m = {| class_priors := Some (estimate_class_priors labels);
         conditional_probabilities :=
           Some (map (fun c => map (spec_smoothed X labels delta c)
                                   (seq 0 (ncols X)))
                     (seq 0 (S (list_max_nat labels))));
         vocab_size := Some (ncols X) |}.
Proof.
  intros [_ [self Hfit]].
  destruct (fit_ok_inv _ _ _ _ _ Hfit) as [Hne Hlen].
  rewrite fit_ok in Hfit by assumption.
  split; [assumption|]. split; [assumption|]. congruence.
Qed.

Lemma trained_by_shape m X labels delta :
  trained_by m X labels delta ->
  model_shape m (S (list_max_nat labels)) (ncols X).
Proof.
  intros H. destruct (trained_by_inv _ _ _ _ H) as (Hne & Hlen & ->).
  eexists _, _. split; [reflexivity|]. split; [reflexivity|].
  split; [reflexivity|]. split.
  { unfold estimate_class_priors. rewrite bincount_nonempty by assumption.
    now rewrite !length_map, length_seq. }
  split; [now rewrite length_map, length_seq|].
  apply Forall_map. apply List.Forall_forall. intros c _. simpl.
  now rewrite length_map, length_seq.
Qed.

Lemma for_each_Forall2 {A B} (body : A -> result B) (l : list A)
    (bs : list B) :
  for_each body l = Ok bs <-> Forall2 (fun a b => body a = Ok b) l bs.
Proof.
  revert bs. induction l as [|a l IH]; intros bs; simpl.
  - split.
    + intros [= <-]. constructor.
    + intros H. inversion H. reflexivity.
  - destruct (body a) as [b|e] eqn:Hb; simpl.
    + destruct (for_each body l) as [bs'|e] eqn:Hl; simpl.
      * split.
        -- intros [= <-]. constructor; [assumption | now apply IH].
        -- intros H. inversion H as [|? b' ? bs'' Hb' Hbs]; subst.
           apply IH in Hbs. congruence.
      * split; [discriminate|].
        intros H. inversion H as [|? b' ? bs'' Hb' Hbs]; subst.
        apply IH in Hbs. discriminate.
    + split; [discriminate|].
      intros H. inversion H; subst. congruence.
Qed.

Lemma for_each_total {A B} (body : A -> result B) (l : list A) :
  (forall a, In a l -> exists b, body a = Ok b) ->
  exists bs, for_each body l = Ok bs /\ length bs = length l.
Proof.
  induction l as [|a l IH]; intros H; simpl; [now exists []|].
  destruct (H a) as [b Hb]; [now left|]. rewrite Hb. simpl.
  destruct IH as (bs & Hbs & Hlen); [intros; apply H; now right|].
  rewrite Hbs. simpl. exists (b :: bs). split; [reflexivity|].
  simpl. now rewrite Hlen.
Qed.

Lemma tmul_same_length (a b : list float) :
  length a = length b -> tmul a b = Ok (zip_mul a b).
Proof.
  intros H. unfold tmul. now rewrite (proj2 (Nat.eqb_eq _ _) H).
Qed.

Lemma tmul_not_broadcastable (a b : list float) :
  broadcastable (length a) (length b) = false -> tmul a b = Raise RuntimeError.
Proof.
  unfold broadcastable, tmul. intros H.
  apply orb_false_iff in H as [H H3]. apply orb_false_iff in H as [H1 H2].
  rewrite H1.
  destruct a as [|x [|x' a]]; destruct b as [|y [|y' b]];
    try reflexivity; simpl in *; discriminate.
Qed.

Lemma tmul_broadcastable (a b : list float) :
  broadcastable (length a) (length b) = true -> exists p, tmul a b = Ok p.
Proof.
  unfold broadcastable, tmul. intros H.
  destruct (length a =? length b) eqn:E; [eauto|].
  destruct a as [|x [|x' a]]; destruct b as [|y [|y' b]];
    simpl in *; try discriminate; eauto.
Qed.

Lemma getitem_lookup {A} (d : list A) k v :
  d !! k = Some v -> getitem d k = Ok v.
Proof. intros H. unfold getitem. now rewrite H. Qed.

Section Inference.
Variables (m : NaiveBayes) (classes vocab : nat).
Variables (priors : list float) (cond : list (list float)).
Hypothesis Hpriors : class_priors m = Some priors.
Hypothesis Hcond : conditional_probabilities m = Some cond.
Hypothesis Hlen_priors : length priors = S classes.
Hypothesis Hlen_cond : length cond = S classes.
Hypothesis Hrows : Forall (fun cond_c => length cond_c = vocab) cond.

Lemma class_lookup c :
  c <= classes ->
  exists prior_c cond_c,
    priors !! c = Some prior_c /\ cond !! c = Some cond_c /\
    length cond_c = vocab.
Proof using Hlen_priors Hlen_cond Hrows.
  intros Hc.
  destruct (lookup_lt_is_Some_2 priors c) as [prior_c Hp]; [lia|].
  destruct (lookup_lt_is_Some_2 cond c) as [cond_c Hq]; [lia|].
  exists prior_c, cond_c. split; [assumption|]. split; [assumption|].
  rewrite List.Forall_forall in Hrows. apply Hrows.
  apply list_elem_of_In. eapply list_elem_of_lookup_2. eassumption.
Qed.

Lemma log_posterior_mismatch feature c :
  c <= classes ->
  broadcastable (length feature) vocab = false ->
  log_posterior priors cond feature c = Raise RuntimeError.
Proof using Hlen_priors Hlen_cond Hrows.
  intros Hc Hb.
  destruct (class_lookup c Hc) as (prior_c & cond_c & Hp & Hq & Hl).
  unfold log_posterior.
  rewrite (getitem_lookup _ _ _ Hp), (getitem_lookup _ _ _ Hq). cbn [bind].
  rewrite tmul_not_broadcastable; [reflexivity|].
  now rewrite length_map, Hl.
Qed.

Lemma log_posterior_total feature c :
  c <= classes ->
  broadcastable (length feature) vocab = true ->
  exists lp, log_posterior priors cond feature c = Ok lp.
Proof using Hlen_priors Hlen_cond Hrows.
  intros Hc Hb.
  destruct (class_lookup c Hc) as (prior_c & cond_c & Hp & Hq & Hl).
  unfold log_posterior.
  rewrite (getitem_lookup _ _ _ Hp), (getitem_lookup _ _ _ Hq). cbn [bind].
  destruct (tmul_broadcastable feature (map flog cond_c)) as [p Hmul].
  - now rewrite length_map, Hl.
  - rewrite Hmul. cbn [bind]. eauto.
Qed.

Lemma log_posterior_same_length feature c prior_c cond_c :
  priors !! c = Some prior_c -> cond !! c = Some cond_c ->
  length feature = vocab ->
  log_posterior priors cond feature c
  = Ok (spec_log_posterior prior_c cond_c feature).
Proof using Hrows.
  intros Hp Hq Hf. unfold log_posterior.
  rewrite (getitem_lookup _ _ _ Hp), (getitem_lookup _ _ _ Hq). cbn [bind].
  rewrite tmul_same_length; [reflexivity|].
  rewrite length_map, Hf. symmetry.
  rewrite List.Forall_forall in Hrows. apply Hrows.
  apply list_elem_of_In. eapply list_elem_of_lookup_2. eassumption.
Qed.

(** Shapes that do not broadcast: the product in the first turn of the
    loop raises. *)
Lemma posteriors_mismatch feature :
  broadcastable (length feature) vocab = false ->
  estimate_class_posteriors m feature = Raise RuntimeError.
Proof using All.
  intros Hb. unfold estimate_class_posteriors. rewrite Hcond, Hpriors.
  unfold keys. rewrite Hlen_priors. cbn [seq].
  erewrite for_each_raise; [reflexivity|].
  apply log_posterior_mismatch; [lia | assumption].
Qed.

(** The loop for the shapes that broadcast: one log-posterior per class. *)
Lemma posteriors_loop feature :
  broadcastable (length feature) vocab = true ->
  exists lps, for_each (log_posterior priors cond feature) (keys priors)
              = Ok lps /\
    length lps = S classes /\
    forall c lp, lps !! c = Some lp ->
      log_posterior priors cond feature c = Ok lp.
Proof using Hlen_priors Hlen_cond Hrows.
  intros Hb.
  destruct (for_each_total (log_posterior priors cond feature) (keys priors))
    as (lps & Hlps & Hlen).
  - intros c Hc. unfold keys in Hc. apply in_seq in Hc.
    apply log_posterior_total; [lia | assumption].
  - exists lps. split; [assumption|].
    unfold keys in Hlen. rewrite length_seq in Hlen.
    split; [lia|]. intros c lp Hc.
    apply for_each_Forall2 in Hlps.
    destruct (Forall2_lookup_r _ _ _ _ _ Hlps Hc) as (c' & Hc' & Hbody).
    unfold keys in Hc'. apply lookup_seq in Hc' as [-> _]. exact Hbody.
Qed.

(** A single class: the entry of class 1 is read and is not there. *)
Lemma posteriors_one_class feature :
  classes = 0 ->
  broadcastable (length feature) vocab = true ->
  estimate_class_posteriors m feature = Raise (KeyError 1).
Proof using All.
  intros H0 Hb. unfold estimate_class_posteriors. rewrite Hcond, Hpriors.
  destruct (posteriors_loop feature Hb) as (lps & -> & Hlen & _).
  cbn [bind]. rewrite H0 in Hlen.
  destruct lps as [|lp0 [|lp1 lps]]; try discriminate. reflexivity.
Qed.

(** Two classes or more: the entries of the classes 0 and 1, and no
    other. *)
Lemma posteriors_two_classes feature :
  1 <= classes ->
  broadcastable (length feature) vocab = true ->
  exists lp0 lp1,
    estimate_class_posteriors m feature = Ok [lp0; lp1] /\
    log_posterior priors cond feature 0 = Ok lp0 /\
    log_posterior priors cond feature 1 = Ok lp1.
Proof using All.
  intros H1 Hb. unfold estimate_class_posteriors. rewrite Hcond, Hpriors.
  destruct (posteriors_loop feature Hb) as (lps & -> & Hlen & Hlp).
  cbn [bind].
  destruct lps as [|lp0 [|lp1 lps]]; simpl in Hlen; try lia.
  exists lp0, lp1. split; [reflexivity|].
  split; [now apply (Hlp 0) | now apply (Hlp 1)].
Qed.

Lemma trained_not_falsy :
  falsy (class_priors m) || falsy (conditional_probabilities m) = false.
Proof using All.
  rewrite Hpriors, Hcond.
  destruct priors; [discriminate|]. destruct cond; [discriminate|].
  reflexivity.
Qed.

Lemma predict_unfold feature :
  predict m feature
  = try log_posteriors <- estimate_class_posteriors m feature in
    argmax log_posteriors.
Proof using All.
  unfold predict. now rewrite trained_not_falsy.
Qed.

Lemma predict_proba_unfold feature :
  predict_proba m feature
  = try log_posteriors <- estimate_class_posteriors m feature in
    Ok (softmax log_posteriors).
Proof using All.
  unfold predict_proba. now rewrite trained_not_falsy.
Qed.
End Inference.

Lemma broadcastable_refl n : broadcastable n n = true.
Proof. unfold broadcastable. now rewrite Nat.eqb_refl. Qed.

Lemma argmax_pair (x y : float) :
  exists p, argmax [x; y] = Ok p /\ (p = 0 \/ p = 1).
Proof.
  simpl. destruct (greater_or_nan y x); eexists; split; eauto.
Qed.

(** The three outcomes of [estimate_class_posteriors] on a trained model. *)
Lemma posteriors_cases m X labels delta feature :
  trained_by m X labels delta ->
  (broadcastable (length feature) (ncols X) = false /\
   estimate_class_posteriors m feature = Raise RuntimeError) \/
  (broadcastable (length feature) (ncols X) = true /\
   list_max_nat labels = 0 /\
   estimate_class_posteriors m feature = Raise (KeyError 1)) \/
  (broadcastable (length feature) (ncols X) = true /\
   1 <= list_max_nat labels /\
   exists lp0 lp1, estimate_class_posteriors m feature = Ok [lp0; lp1]).
Proof.
  intros Ht.
  destruct (trained_by_shape _ _ _ _ Ht)
    as (priors & cond & Hp & Hc & _ & Hlp & Hlc & Hrows).
  destruct (broadcastable (length feature) (ncols X)) eqn:Hb.
  - right. destruct (list_max_nat labels) as [|k] eqn:Hmax.
    + left. split; [reflexivity|]. split; [reflexivity|].
      eapply posteriors_one_class; eauto.
    + right. split; [reflexivity|]. split; [lia|].
      destruct (posteriors_two_classes m (S k) (ncols X) priors cond
                  Hp Hc Hlp Hlc Hrows feature) as (lp0 & lp1 & H & _);
        [lia | assumption | eauto].
  - left. split; [reflexivity|]. eapply posteriors_mismatch; eauto.
Qed.

Lemma trained_by_predict m X labels delta feature :
  trained_by m X labels delta ->
  predict m feature
  = (try log_posteriors <- estimate_class_posteriors m feature in
     argmax log_posteriors) /\
  predict_proba m feature
  = (try log_posteriors <- estimate_class_posteriors m feature in
     Ok (softmax log_posteriors)).
Proof.
  intros Ht.
  destruct (trained_by_shape _ _ _ _ Ht)
    as (priors & cond & Hp & Hc & _ & Hlp & Hlc & Hrows).
  split.
  - eapply predict_unfold; eauto.
  - eapply predict_proba_unfold; eauto.
Qed.

(** C10.  On a model trained with two classes or more, whatever their
    number, and a feature vector of the length of the vocabulary, the
    posterior vector is made of the log-posteriors of the classes 0 and 1
    and of nothing else; [predict] returns 0 or 1 and [predict_proba] a
    vector of two entries. *)
Theorem two_class_posteriors m X labels delta (feature : list float) :
  trained_by m X labels delta ->
  1 <= list_max_nat labels ->
  length feature = ncols X ->
  exists (priors : list float) (cond : list (list float))
         prior_0 prior_1 cond_0 cond_1,
    class_priors m = Some priors /\
    conditional_probabilities m = Some cond /\
    length priors = S (list_max_nat labels) /\
    priors !! 0 = Some prior_0 /\ priors !! 1 = Some prior_1 /\
    cond !! 0 = Some cond_0 /\ cond !! 1 = Some cond_1 /\
    estimate_class_posteriors m feature
    = Ok [spec_log_posterior prior_0 cond_0 feature;
          spec_log_posterior prior_1 cond_1 feature] /\
    (exists p, predict m feature = Ok p /\ (p = 0 \/ p = 1)) /\
    (exists q, predict_proba m feature = Ok q /\ length q = 2).
Proof.
  intros Ht Hmax Hf.
  destruct (trained_by_predict _ _ _ _ feature Ht) as [Hpred Hproba].
  destruct (trained_by_shape _ _ _ _ Ht)
    as (priors & cond & Hp & Hc & _ & Hlp & Hlc & Hrows).
  assert (Hb : broadcastable (length feature) (ncols X) = true)
    by (rewrite Hf; apply broadcastable_refl).
  destruct (class_lookup (list_max_nat labels) (ncols X) priors cond
              Hlp Hlc Hrows 0) as (prior_0 & cond_0 & Hp0 & Hc0 & _); [lia|].
  destruct (class_lookup (list_max_nat labels) (ncols X) priors cond
              Hlp Hlc Hrows 1) as (prior_1 & cond_1 & Hp1 & Hc1 & _); [lia|].
  destruct (posteriors_two_classes m (list_max_nat labels) (ncols X)
              priors cond Hp Hc Hlp Hlc Hrows feature Hmax Hb)
    as (lp0 & lp1 & Hest & H0 & H1).
  rewrite (log_posterior_same_length (ncols X) priors cond Hrows
             feature 0 prior_0 cond_0 Hp0 Hc0 Hf) in H0.
  rewrite (log_posterior_same_length (ncols X) priors cond Hrows
             feature 1 prior_1 cond_1 Hp1 Hc1 Hf) in H1.
  injection H0 as <-. injection H1 as <-.
  exists priors, cond, prior_0, prior_1, cond_0, cond_1.
  repeat (split; [assumption|]).
  split.
  - rewrite Hpred, Hest. cbn [bind]. apply argmax_pair.
  - rewrite Hproba, Hest. cbn [bind]. eexists. split; [reflexivity|].
    unfold softmax. now rewrite !length_map.
Qed.

(** Equal entries: [argmax] keeps the first. *)
Lemma argmax_tie (x : float) : argmax [x; x] = Ok 0.
Proof.
  simpl. unfold greater_or_nan.
  destruct x; simpl; try reflexivity.
  now rewrite Rltb_false by lra.
Qed.

(** The tie-break scenario: two symmetric examples and a feature vector
    with both words give equal log-posteriors, and [predict] returns the
    lower class. *)
Lemma predict_tie :
  exists m lp,
    fit init (mkMatrix 2 [[Fin 1; Fin 0]; [Fin 0; Fin 1]]) [0; 1] (Fin 1)
    = (m, Ok tt) /\
    estimate_class_posteriors m [Fin 1; Fin 1] = Ok [lp; lp] /\
    predict m [Fin 1; Fin 1] = Ok 0.
Proof.
  exists {| class_priors := Some [Fin (1 / 2); Fin (1 / 2)];
            conditional_probabilities :=
              Some [[Fin (2 / 3); Fin (1 / 3)]; [Fin (1 / 3); Fin (2 / 3)]];
            vocab_size := Some 2 |},
         (Fin (ln (1 / 2) + (ln (2 / 3) + ln (1 / 3)))).
  assert (Hest :
    estimate_class_posteriors
      {| class_priors := Some [Fin (1 / 2); Fin (1 / 2)];
         conditional_probabilities :=
           Some [[Fin (2 / 3); Fin (1 / 3)]; [Fin (1 / 3); Fin (2 / 3)]];
         vocab_size := Some 2 |} [Fin 1; Fin 1]
    = Ok [Fin (ln (1 / 2) + (ln (2 / 3) + ln (1 / 3)));
          Fin (ln (1 / 2) + (ln (2 / 3) + ln (1 / 3)))]).
  { unfold estimate_class_posteriors. cbn -[flog].
    unfold log_posterior, tmul. cbn -[flog].
    rewrite !flog_Fin by lra. cbn.
    f_equal. f_equal; [f_equal; lra | f_equal; f_equal; lra]. }
  split; [|split; [exact Hest|]].
  - rewrite fit_ok by (discriminate || reflexivity).
    unfold estimate_class_priors.
    cbn [list_max_nat fold_right Nat.max seq map ncols bincount count_occ
         length].
    unfold spec_smoothed, spec_count, of_nat. cbn -[fdiv].
    rewrite !fdiv_Fin by lra.
    repeat f_equal; lra.
  - unfold predict. cbn [class_priors conditional_probabilities falsy orb].
    rewrite Hest. cbn [bind]. apply argmax_tie.
Qed.

(** What [predict] maximises is the vector that
    [estimate_class_posteriors] returns, which holds the classes 0 and 1
    only.  On a model trained with two classes or more and a feature vector
    whose length fits, [predict] returns an index of that vector whose
    entry is maximal, and the first such index: every entry before it is
    strictly smaller.  The order is that of [argmax], in which [nan] is
    above every number; on a vector without [nan] it is the usual one. *)
Lemma predict_argmax m X labels delta (feature : list float) :
  trained_by m X labels delta ->
  1 <= list_max_nat labels ->
  broadcastable (length feature) (ncols X) = true ->
  exists (v : list float) p y,
    estimate_class_posteriors m feature = Ok v /\
    predict m feature = Ok p /\
    v !! p = Some y /\
    (forall j x, v !! j = Some x -> torch_ge y x = true) /\
    (forall j x, j < p -> v !! j = Some x -> torch_gt y x = true) /\
    (Forall (fun x => isnan x = false) v ->
       (forall j x, v !! j = Some x -> flt y x = false) /\
       (forall j x, j < p -> v !! j = Some x -> flt x y = true)).
Proof.
  intros Ht Hmax Hb.
  destruct (trained_by_predict _ _ _ _ feature Ht) as [Hpred _].
  destruct (posteriors_cases _ _ _ _ feature Ht)
    as [[Hb' _]|[(_ & H0 & _)|(_ & _ & lp0 & lp1 & Hest)]];
    [congruence | lia |].
  destruct (argmax_spec [lp0; lp1]) as (p & y & Harg & Hy & Hge & Hgt);
    [discriminate|].
  exists [lp0; lp1], p, y. split; [assumption|].
  split; [rewrite Hpred, Hest; exact Harg|].
  split; [assumption|]. split; [assumption|]. split; [assumption|].
  intros Hnan. rewrite List.Forall_forall in Hnan.
  assert (Hin : forall j x, [lp0; lp1] !! j = Some x -> isnan x = false).
  { intros j x Hj. apply Hnan. apply list_elem_of_In.
    eapply list_elem_of_lookup_2. eassumption. }
  split.
  - intros j x Hj. specialize (Hge j x Hj).
    rewrite torch_ge_flt in Hge by eauto.
    now apply negb_true_iff in Hge.
  - intros j x Hlt Hj. specialize (Hgt j x Hlt Hj).
    rewrite torch_gt_flt in Hgt by eauto. exact Hgt.
Qed.

(** ** The end-to-end scenario *)

Lemma scenario_fit :
  fit init scenario_features scenario_labels (Fin 1)
  = ({| class_priors := Some [Fin (1 / 2); Fin (1 / 2)];
        conditional_probabilities :=
          Some [[Fin (1 / 5); Fin (2 / 5); Fin (2 / 5)];
                [Fin (2 / 5); Fin (2 / 5); Fin (1 / 5)]];
        vocab_size := Some 3 |}, Ok tt).
Proof.
  rewrite fit_ok by (discriminate || reflexivity).
  unfold scenario_labels, scenario_features, estimate_class_priors.
  cbn [list_max_nat fold_right Nat.max seq map ncols bincount count_occ
       length].
  unfold spec_smoothed, spec_count, of_nat. cbn -[fdiv].
  rewrite !fdiv_Fin by lra.
  repeat f_equal; lra.
Qed.

Lemma scenario_model_eq :
  scenario_model
  = {| class_priors := Some [Fin (1 / 2); Fin (1 / 2)];
       conditional_probabilities :=
         Some [[Fin (1 / 5); Fin (2 / 5); Fin (2 / 5)];
               [Fin (2 / 5); Fin (2 / 5); Fin (1 / 5)]];
       vocab_size := Some 3 |}.
Proof. unfold scenario_model. now rewrite scenario_fit. Qed.

Lemma scenario_trained :
  trained_by scenario_model scenario_features scenario_labels (Fin 1).
Proof.
  split; [repeat constructor|]. exists init.
  unfold scenario_model. now rewrite scenario_fit.
Qed.

Lemma scenario_predict : predict scenario_model scenario_query = Ok 0.
Proof.
  rewrite scenario_model_eq. unfold predict, estimate_class_posteriors.
  cbn -[flog]. unfold log_posterior, tmul. cbn -[flog].
  rewrite !flog_Fin by lra. cbn.
  unfold greater_or_nan. cbn. rewrite Rltb_false; [reflexivity|].
  assert (ln (1 / 5) < ln (2 / 5))%R by (apply ln_increasing; lra).
  lra.
Qed.

(** C4.  The vocabulary of the two examples is [{good:0, movie:1, bad:2}];
    the vector of [["good"; "movie"]] is [[1,1,0]]; [fit] on the two
    vectors with the labels [[1,0]] and [delta = 1] raises nothing and
    stores the priors [{0: 0.5, 1: 0.5}]; the vector of [["bad"]] is
    [[0,0,1]] and [predict] returns class 0 on it. *)
Theorem end_to_end_scenario :
  build_vocab scenario_examples = scenario_vocab /\
  bag_of_words ["good"; "movie"]%string scenario_vocab false
  = Ok [Fin 1; Fin 1; Fin 0] /\
  bag_of_words ["bad"; "movie"]%string scenario_vocab false
  = Ok [Fin 0; Fin 1; Fin 1] /\
  bag_of_words ["bad"]%string scenario_vocab false
  = Ok [Fin 0; Fin 0; Fin 1] /\
  exists m,
    fit init (mkMatrix 3 [[Fin 1; Fin 1; Fin 0]; [Fin 0; Fin 1; Fin 1]])
        [1; 0] (Fin 1) = (m, Ok tt) /\
    class_priors m = Some [Fin (1 / 2); Fin (1 / 2)] /\
    predict m [Fin 0; Fin 0; Fin 1] = Ok 0.
Proof.
  split; [vm_compute; reflexivity|].
  split; [vm_compute; repeat f_equal; lra|].
  split; [vm_compute; repeat f_equal; lra|].
  split; [vm_compute; repeat f_equal; lra|].
  exists scenario_model. split.
  - rewrite scenario_model_eq. exact scenario_fit.
  - split; [now rewrite scenario_model_eq | exact scenario_predict].
Qed.

(** ** Exceptions of the inference operations *)

Lemma trained_by_vocab_size m X labels delta :
  trained_by m X labels delta -> vocab_size m = Some (ncols X).
Proof.
  intros H. destruct (trained_by_inv _ _ _ _ H) as (_ & _ & ->). reflexivity.
Qed.

(** The exceptions of the three operations on a trained model come from
    [estimate_class_posteriors]: the other two add none. *)
Lemma inference_signals (kind : exn -> bool) m X labels delta feature :
  trained_by m X labels delta ->
  signals kind (predict m feature)
  = signals kind (estimate_class_posteriors m feature) /\
  signals kind (predict_proba m feature)
  = signals kind (estimate_class_posteriors m feature).
Proof.
  intros Ht.
  destruct (trained_by_predict _ _ _ _ feature Ht) as [-> ->].
  destruct (posteriors_cases _ _ _ _ feature Ht)
    as [[_ ->]|[(_ & _ & ->)|(_ & _ & lp0 & lp1 & ->)]];
    split; reflexivity.
Qed.

(** C5, as the code has it.  No operation compares the length of the
    feature vector with [vocab_size].  On a trained model each of the three
    raises the shape error of the tensor product exactly when the length of
    the feature vector and [vocab_size] do not broadcast: they differ and
    none of them is 1.  With a matching length none raises it. *)
Theorem dimension_error_iff m X labels delta (feature : list float) :
  trained_by m X labels delta ->
  vocab_size m = Some (ncols X) /\
  signals dimension_error (estimate_class_posteriors m feature)
  = negb (broadcastable (length feature) (ncols X)) /\
  signals dimension_error (predict m feature)
  = negb (broadcastable (length feature) (ncols X)) /\
  signals dimension_error (predict_proba m feature)
  = negb (broadcastable (length feature) (ncols X)) /\
  (length feature = ncols X ->
   signals dimension_error (estimate_class_posteriors m feature) = false /\
   signals dimension_error (predict m feature) = false /\
   signals dimension_error (predict_proba m feature) = false).
Proof.
  intros Ht.
  destruct (inference_signals dimension_error _ _ _ _ feature Ht)
    as [Hpred Hproba].
  assert (Hest : signals dimension_error (estimate_class_posteriors m feature)
                 = negb (broadcastable (length feature) (ncols X))).
  { destruct (posteriors_cases _ _ _ _ feature Ht)
      as [[-> ->]|[(-> & _ & ->)|(-> & _ & lp0 & lp1 & ->)]]; reflexivity. }
  split; [now apply trained_by_vocab_size with labels delta|].
  rewrite Hpred, Hproba, Hest.
  repeat (split; [reflexivity|]).
  intros ->. now rewrite broadcastable_refl.
Qed.

Lemma dimension_error_iff_witness :
  trained_by scenario_model scenario_features scenario_labels (Fin 1) /\
  vocab_size scenario_model = Some 3 /\
  signals dimension_error
    (estimate_class_posteriors scenario_model [Fin 1; Fin 0])
  = negb (broadcastable 2 3) /\
  signals dimension_error (predict scenario_model [Fin 1; Fin 0])
  = negb (broadcastable 2 3) /\
  signals dimension_error (predict_proba scenario_model [Fin 1; Fin 0])
  = negb (broadcastable 2 3) /\
  (2 = 3 ->
   signals dimension_error
     (estimate_class_posteriors scenario_model [Fin 1; Fin 0]) = false /\
   signals dimension_error (predict scenario_model [Fin 1; Fin 0]) = false /\
   signals dimension_error (predict_proba scenario_model [Fin 1; Fin 0])
   = false).
Proof.
  split; [exact scenario_trained|].
  apply (dimension_error_iff scenario_model scenario_features scenario_labels
           (Fin 1) [Fin 1; Fin 0]).
  exact scenario_trained.
Defined.

(** C5 as stated fails on a feature vector of length 1: the vocabulary of
    the scenario has three words, the product broadcasts and the three
    operations return. *)
Lemma short_feature_accepted :
  trained_by scenario_model scenario_features scenario_labels (Fin 1) /\
  vocab_size scenario_model = Some 3 /\
  length [Fin 1] <> 3 /\
  (exists v, estimate_class_posteriors scenario_model [Fin 1] = Ok v) /\
  (exists p, predict scenario_model [Fin 1] = Ok p) /\
  (exists q, predict_proba scenario_model [Fin 1] = Ok q).
Proof.
  split; [exact scenario_trained|].
  split; [now rewrite scenario_model_eq|].
  split; [discriminate|].
  destruct (trained_by_predict _ _ _ _ [Fin 1] scenario_trained) as [-> ->].
  destruct (posteriors_cases _ _ _ _ [Fin 1] scenario_trained)
    as [[Hb _]|[(_ & H0 & _)|(_ & _ & lp0 & lp1 & ->)]].
  - discriminate.
  - discriminate.
  - split; [eauto|]. cbn [bind]. split; [|eauto].
    destruct (argmax_pair lp0 lp1) as (p & Hp & _). eauto.
Qed.

(** C7.  On an object on which [fit] was never called the three inference
    operations raise their "not trained" exception, whatever the feature
    vector.  On an object left by a call of [fit] that raised nothing,
    none of them raises it. *)
Theorem untrained_error_iff :
  (forall feature : list float,
     estimate_class_posteriors init feature
     = Raise (ValueError untrained_msg1) /\
     predict init feature = Raise (PyException untrained_msg2) /\
     predict_proba init feature = Raise (PyException untrained_msg2) /\
     signals untrained_error (estimate_class_posteriors init feature) = true /\
     signals untrained_error (predict init feature) = true /\
     signals untrained_error (predict_proba init feature) = true) /\
  (forall m (feature : list float),
     trained m ->
     signals untrained_error (estimate_class_posteriors m feature) = false /\
     signals untrained_error (predict m feature) = false /\
     signals untrained_error (predict_proba m feature) = false).
Proof.
  split.
  - intros feature. repeat split; reflexivity.
  - intros m feature (X & labels & delta & Ht).
    destruct (inference_signals untrained_error _ _ _ _ feature Ht)
      as [-> ->].
    assert (H : signals untrained_error
                  (estimate_class_posteriors m feature) = false).
    { destruct (posteriors_cases _ _ _ _ feature Ht)
        as [[_ ->]|[(_ & _ & ->)|(_ & _ & lp0 & lp1 & ->)]]; reflexivity. }
    now rewrite H.
Qed.

Lemma scenario_is_trained : trained scenario_model.
Proof.
  exists scenario_features, scenario_labels, (Fin 1). exact scenario_trained.
Qed.

Lemma untrained_error_iff_witness :
  trained scenario_model /\
  signals untrained_error
    (estimate_class_posteriors scenario_model scenario_query) = false /\
  signals untrained_error (predict scenario_model scenario_query) = false /\
  signals untrained_error (predict_proba scenario_model scenario_query)
  = false.
Proof.
  split; [exact scenario_is_trained|].
  apply (proj2 untrained_error_iff scenario_model scenario_query).
  exact scenario_is_trained.
Defined.

(** ** The smoothing parameter *)

Lemma fit_outcome self X labels delta :
  snd (fit self X labels delta)
  = match labels with
    | [] => Raise RuntimeError
    | _ => if length labels =? length (mrows X) then Ok tt
           else Raise IndexError
    end.
Proof.
  destruct labels as [|l labels].
  - unfold fit. now rewrite estimate_conditional_probabilities_empty.
  - destruct (length (l :: labels) =? length (mrows X)) eqn:E.
    + apply Nat.eqb_eq in E. now rewrite fit_ok.
    + apply Nat.eqb_neq in E. unfold fit.
      now rewrite estimate_conditional_probabilities_mask.
Qed.

(** C6, as the code has it.  [fit] never looks at the sign of [delta]:
    what it raises, if anything, is the same for every [delta].  On a
    training set with at least one example and one label per row it raises
    nothing and leaves a trained model, for a negative [delta] as for any
    other. *)
Theorem fit_accepts_any_delta self X (labels : list nat) (delta : float) :
  (forall delta', snd (fit self X labels delta)
                  = snd (fit self X labels delta')) /\
  (matrix_wf X -> labels <> [] -> length labels = length (mrows X) ->
   exists m,
     fit self X labels delta = (m, Ok tt) /\
     trained m /\
     model_shape m (S (list_max_nat labels)) (ncols X)).
Proof.
  split.
  - intros delta'. now rewrite !fit_outcome.
  - intros Hwf Hne Hlen. eexists. split; [now apply fit_ok|].
    assert (Ht : trained_by
                   {| class_priors := Some (estimate_class_priors labels);
                      conditional_probabilities :=
                        Some (map (fun c => map (spec_smoothed X labels delta c)
                                                (seq 0 (ncols X)))
                                  (seq 0 (S (list_max_nat labels))));
                      vocab_size := Some (ncols X) |} X labels delta).
    { split; [assumption|]. exists self. now apply fit_ok. }
    split; [now exists X, labels, delta|].
    now apply trained_by_shape with delta.
Qed.

Lemma fit_accepts_any_delta_witness :
  (forall delta',
     snd (fit init scenario_features scenario_labels (Fin (-1)))
     = snd (fit init scenario_features scenario_labels delta')) /\
  exists m,
    fit init scenario_features scenario_labels (Fin (-1)) = (m, Ok tt) /\
    trained m /\
    model_shape m 2 3.
Proof.
  destruct (fit_accepts_any_delta init scenario_features scenario_labels
              (Fin (-1))) as [H1 H2].
  split; [exact H1|]. apply H2.
  - repeat constructor.
  - discriminate.
  - reflexivity.
Defined.

(** C6 as stated fails: with [delta = -1] on the training set of the
    scenario [fit] raises nothing, sets the three attributes, and [predict]
    then returns. *)
Lemma negative_delta_accepted :
  exists m,
    fit init scenario_features scenario_labels (Fin (-1)) = (m, Ok tt) /\
    class_priors m <> None /\
    conditional_probabilities m <> None /\
    vocab_size m = Some 3 /\
    exists p, predict m scenario_query = Ok p.
Proof.
  eexists. split; [apply fit_ok; discriminate || reflexivity|].
  split; [discriminate|]. split; [discriminate|]. split; [reflexivity|].
  match goal with |- exists p, predict ?m _ = _ => set (model := m) end.
  assert (Ht : trained_by model scenario_features scenario_labels (Fin (-1))).
  { split; [repeat constructor|]. exists init.
    apply fit_ok; discriminate || reflexivity. }
  destruct (trained_by_predict _ _ _ _ scenario_query Ht) as [-> _].
  destruct (posteriors_cases _ _ _ _ scenario_query Ht)
    as [[Hb _]|[(_ & H0 & _)|(_ & _ & lp0 & lp1 & ->)]].
  - discriminate.
  - discriminate.
  - cbn [bind]. destruct (argmax_pair lp0 lp1) as (p & Hp & _). eauto.
Qed.

(** ** The number of classes *)

(** C1 on three classes: the model holds three priors and
    [estimate_class_posteriors] returns two entries. *)
Lemma three_classes_two_entries :
  exists m priors v,
    fit init (mkMatrix 2 [[Fin 1; Fin 0]; [Fin 0; Fin 1]; [Fin 1; Fin 1]])
        [0; 1; 2] (Fin 1) = (m, Ok tt) /\
    class_priors m = Some priors /\
    length priors = 3 /\
    estimate_class_posteriors m [Fin 1; Fin 0] = Ok v /\
    length v = 2.
Proof.
  set (X := mkMatrix 2 [[Fin 1; Fin 0]; [Fin 0; Fin 1]; [Fin 1; Fin 1]]).
  eexists _, _. 
  assert (Hfit := fit_ok init X [0; 1; 2] (Fin 1)).
  match type of Hfit with _ -> _ -> _ = (?m, _) => set (model := m) in * end.
  assert (Ht : trained_by model X [0; 1; 2] (Fin 1)).
  { split; [repeat constructor|]. exists init.
    apply Hfit; discriminate || reflexivity. }
  destruct (posteriors_cases _ _ _ _ [Fin 1; Fin 0] Ht)
    as [[Hb _]|[(_ & H0 & _)|(_ & _ & lp0 & lp1 & Hest)]];
    [discriminate | discriminate |].
  exists [lp0; lp1].
  split; [apply Hfit; discriminate || reflexivity|].
  split; [reflexivity|]. split; [reflexivity|].
  split; [exact Hest | reflexivity].
Qed.

(** C1 on a single class: the entry of class 1 is missing and the call
    raises [KeyError]. *)
Lemma one_class_key_error :
  exists m,
    fit init (mkMatrix 2 [[Fin 1; Fin 0]; [Fin 0; Fin 1]]) [0; 0] (Fin 1)
    = (m, Ok tt) /\
    estimate_class_posteriors m [Fin 1; Fin 0] = Raise (KeyError 1).
Proof.
  set (X := mkMatrix 2 [[Fin 1; Fin 0]; [Fin 0; Fin 1]]).
  assert (Hfit := fit_ok init X [0; 0] (Fin 1)).
  match type of Hfit with _ -> _ -> _ = (?m, _) => set (model := m) in * end.
  exists model.
  assert (Ht : trained_by model X [0; 0] (Fin 1)).
  { split; [repeat constructor|]. exists init.
    apply Hfit; discriminate || reflexivity. }
  split; [apply Hfit; discriminate || reflexivity|].
  destruct (posteriors_cases _ _ _ _ [Fin 1; Fin 0] Ht)
    as [[Hb _]|[(_ & _ & Hest)|(_ & H1 & _)]].
  - discriminate.
  - exact Hest.
  - simpl in H1. lia.
Qed.

Ltac model_entries :=
  repeat match goal with
         | |- Fin _ = Fin _ => f_equal; lra
         | |- (_, _) = (_, _) => f_equal
         | |- Some _ = Some _ => f_equal
         | |- _ :: _ = _ :: _ => f_equal
         | |- {| class_priors := _ |} = _ => f_equal
         end.

(** C9 on three classes.  Trained on one example per class, the model holds
    three priors and three vectors of conditional probabilities.  For the
    feature vector [[1, 1]] the loop of [estimate_class_posteriors]
    computes the log-posterior [ln(2/27)] for class 0 and for class 1, and
    [ln(1/12)] for class 2, which is strictly the largest; the vector
    returned holds the first two only, and [predict] returns class 0. *)
Lemma predict_misses_third_class :
  exists m priors cond (lp0 lp1 lp2 : R),
    fit init (mkMatrix 2 [[Fin 1; Fin 0]; [Fin 0; Fin 1]; [Fin 1; Fin 1]])
        [0; 1; 2] (Fin 1) = (m, Ok tt) /\
    class_priors m = Some priors /\
    conditional_probabilities m = Some cond /\
    log_posterior priors cond [Fin 1; Fin 1] 0 = Ok (Fin lp0) /\
    log_posterior priors cond [Fin 1; Fin 1] 1 = Ok (Fin lp1) /\
    log_posterior priors cond [Fin 1; Fin 1] 2 = Ok (Fin lp2) /\
    (lp0 < lp2)%R /\ (lp1 < lp2)%R /\
    estimate_class_posteriors m [Fin 1; Fin 1] = Ok [Fin lp0; Fin lp1] /\
    predict m [Fin 1; Fin 1] = Ok 0.
Proof.
  set (priors := [Fin (1 / 3); Fin (1 / 3); Fin (1 / 3)]).
  set (cond := [[Fin (2 / 3); Fin (1 / 3)]; [Fin (1 / 3); Fin (2 / 3)];
                [Fin (1 / 2); Fin (1 / 2)]]).
  set (lp0 := (ln (1 / 3) + (ln (2 / 3) + ln (1 / 3)))%R).
  set (lp2 := (ln (1 / 3) + (ln (1 / 2) + ln (1 / 2)))%R).
  exists {| class_priors := Some priors;
            conditional_probabilities := Some cond;
            vocab_size := Some 2 |}, priors, cond, lp0, lp0, lp2.
  assert (Hlt : (lp0 < lp2)%R).
  { assert (H : (ln (2 / 3 * (1 / 3)) < ln (1 / 2 * (1 / 2)))%R)
      by (apply ln_increasing; lra).
    rewrite !ln_mult in H by lra. unfold lp0, lp2. lra. }
  assert (Hest :
    estimate_class_posteriors
      {| class_priors := Some priors;
         conditional_probabilities := Some cond;
         vocab_size := Some 2 |} [Fin 1; Fin 1]
    = Ok [Fin lp0; Fin lp0]).
  { unfold estimate_class_posteriors, priors, cond, lp0. cbn -[flog].
    unfold log_posterior, tmul. cbn -[flog].
    rewrite !flog_Fin by lra. cbn.
    f_equal. f_equal; [f_equal; lra | f_equal; f_equal; lra]. }
  split.
  { rewrite fit_ok by (discriminate || reflexivity).
    unfold estimate_class_priors, priors, cond.
    cbn [list_max_nat fold_right Nat.max seq map ncols bincount count_occ
         length].
    unfold spec_smoothed, spec_count, of_nat. cbn -[fdiv].
    rewrite !fdiv_Fin by lra.
    model_entries. }
  split; [reflexivity|]. split; [reflexivity|].
  split.
  { unfold log_posterior, tmul, priors, cond, lp0. cbn -[flog].
    rewrite !flog_Fin by lra. cbn. f_equal. f_equal. lra. }
  split.
  { unfold log_posterior, tmul, priors, cond, lp0. cbn -[flog].
    rewrite !flog_Fin by lra. cbn. f_equal. f_equal. lra. }
  split.
  { unfold log_posterior, tmul, priors, cond, lp2. cbn -[flog].
    rewrite !flog_Fin by lra. cbn. f_equal. f_equal. lra. }
  split; [exact Hlt|]. split; [exact Hlt|].
  split; [exact Hest|].
  unfold predict. cbn [class_priors conditional_probabilities falsy orb].
  unfold priors at 1. unfold cond at 1. cbn [falsy orb].
  rewrite Hest. cbn [bind]. apply argmax_tie.
Qed.

(** On a single class [predict] returns no class at all: the lookup of
    class 1 raises [KeyError]. *)
Lemma one_class_predict_key_error :
  exists m,
    fit init (mkMatrix 2 [[Fin 1; Fin 0]; [Fin 0; Fin 1]]) [0; 0] (Fin 1)
    = (m, Ok tt) /\
    predict m [Fin 1; Fin 0] = Raise (KeyError 1).
Proof.
  set (X := mkMatrix 2 [[Fin 1; Fin 0]; [Fin 0; Fin 1]]).
  assert (Hfit := fit_ok init X [0; 0] (Fin 1)).
  match type of Hfit with _ -> _ -> _ = (?m, _) => set (model := m) in * end.
  exists model.
  assert (Ht : trained_by model X [0; 0] (Fin 1)).
  { split; [repeat constructor|]. exists init.
    apply Hfit; discriminate || reflexivity. }
  split; [apply Hfit; discriminate || reflexivity|].
  destruct (trained_by_predict _ _ _ _ [Fin 1; Fin 0] Ht) as [-> _].
  destruct (posteriors_cases _ _ _ _ [Fin 1; Fin 0] Ht)
    as [[Hb _]|[(_ & _ & Hest)|(_ & H1 & _)]].
  - discriminate.
  - now rewrite Hest.
  - simpl in H1. lia.
Qed.

Lemma two_class_posteriors_witness :
  trained_by scenario_model scenario_features scenario_labels (Fin 1) /\
  exists (priors : list float) (cond : list (list float))
         prior_0 prior_1 cond_0 cond_1,
    class_priors scenario_model = Some priors /\
    conditional_probabilities scenario_model = Some cond /\
    length priors = 2 /\
    priors !! 0 = Some prior_0 /\ priors !! 1 = Some prior_1 /\
    cond !! 0 = Some cond_0 /\ cond !! 1 = Some cond_1 /\
    estimate_class_posteriors scenario_model scenario_query
    = Ok [spec_log_posterior prior_0 cond_0 scenario_query;
          spec_log_posterior prior_1 cond_1 scenario_query] /\
    (exists p, predict scenario_model scenario_query = Ok p /\
               (p = 0 \/ p = 1)) /\
    (exists q, predict_proba scenario_model scenario_query = Ok q /\
               length q = 2).
Proof.
  split; [exact scenario_trained|].
  apply (two_class_posteriors scenario_model scenario_features
           scenario_labels (Fin 1) scenario_query).
  - exact scenario_trained.
  - apply le_n.
  - reflexivity.
Defined.

Lemma predict_argmax_witness :
  trained_by scenario_model scenario_features scenario_labels (Fin 1) /\
  exists (v : list float) p y,
    estimate_class_posteriors scenario_model scenario_query = Ok v /\
    predict scenario_model scenario_query = Ok p /\
    v !! p = Some y /\
    (forall j x, v !! j = Some x -> torch_ge y x = true) /\
    (forall j x, j < p -> v !! j = Some x -> torch_gt y x = true) /\
    (Forall (fun x => isnan x = false) v ->
       (forall j x, v !! j = Some x -> flt y x = false) /\
       (forall j x, j < p -> v !! j = Some x -> flt x y = true)).
Proof.
  split; [exact scenario_trained|].
  apply (predict_argmax scenario_model scenario_features scenario_labels
           (Fin 1) scenario_query).
  - exact scenario_trained.
  - apply le_n.
  - reflexivity.
Defined.

(** * Further properties *)

(** ** The vocabulary builder *)

Lemma build_vocab_flat examples :
  build_vocab examples
  = fst (fold_left add_word (all_words examples) (∅, 0%Z)).
Proof.
  unfold build_vocab, all_words. f_equal.
  generalize ((∅, 0%Z) : gmap string Z * Z) as st.
  induction examples as [|e es IH]; intros st; simpl; [reflexivity|].
  rewrite fold_left_app. apply IH.
Qed.

Lemma add_word_keeps st word t i :
  st.1 !! t = Some i -> (add_word st word).1 !! t = Some i.
Proof.
  destruct st as [vocab index]. unfold add_word. simpl. intros H.
  destruct (vocab !! word) eqn:Hw; simpl; [assumption|].
  rewrite lookup_insert_ne; [assumption | congruence].
Qed.

Lemma add_words_keep ws st t i :
  st.1 !! t = Some i -> (fold_left add_word ws st).1 !! t = Some i.
Proof.
  revert st. induction ws as [|w ws IH]; intros st H; simpl; [assumption|].
  apply IH. now apply add_word_keeps.
Qed.

Lemma add_word_dom st word :
  dom (add_word st word).1 = dom st.1 ∪ {[word]}.
Proof.
  destruct st as [vocab index]. unfold add_word. simpl.
  destruct (vocab !! word) eqn:Hw; simpl.
  - apply elem_of_dom_2 in Hw. set_solver.
  - rewrite dom_insert_L. set_solver.
Qed.

Lemma add_words_dom ws st :
  dom (fold_left add_word ws st).1 = dom st.1 ∪ list_to_set ws.
Proof.
  revert st. induction ws as [|w ws IH]; intros st; simpl.
  - set_solver.
  - rewrite IH, add_word_dom. set_solver.
Qed.

Lemma add_words_from_empty ws :
  let st := fold_left add_word ws (∅, 0%Z) in
  dom st.1 = list_to_set ws /\ st.2 = Z.of_nat (distinct ws).
Proof.
  simpl. assert (Hdom : dom (fold_left add_word ws (∅, 0%Z)).1
                        = (list_to_set ws : gset string)).
  { rewrite add_words_dom. simpl. rewrite dom_empty_L. set_solver. }
  split; [exact Hdom|].
  destruct (add_words_inv ws (∅, 0%Z)) as (Hsize & _).
  - unfold vocab_inv. simpl. split; [reflexivity|].
    split; intros *; rewrite lookup_empty; discriminate.
  - rewrite Hsize. unfold distinct. now rewrite <- Hdom, size_dom.
Qed.

(** X1.  A word is in the vocabulary exactly when it occurs in one of the
    examples. *)
Theorem build_vocab_domain (examples : list SentimentExample) (w : string) :
  is_Some (build_vocab examples !! w)
  <-> exists e, e ∈ examples /\ w ∈ words e.
Proof.
  rewrite build_vocab_flat, <- elem_of_dom.
  destruct (add_words_from_empty (all_words examples)) as [-> _].
  rewrite elem_of_list_to_set. unfold all_words.
  rewrite list_elem_of_In, in_concat. split.
  - intros (ws & Hws & Hw). apply in_map_iff in Hws as (e & <- & He).
    exists e. now rewrite !list_elem_of_In.
  - intros (e & He & Hw). exists (words e).
    rewrite !list_elem_of_In in *. split; [|assumption].
    apply in_map_iff. eauto.
Qed.

(** X2.  Indices follow the order of first occurrence: the index of a word
    is the number of distinct words read before it first occurs. *)
Theorem build_vocab_first_occurrence (examples : list SentimentExample)
    (pre post : list string) (w : string) :
  all_words examples = pre ++ w :: post ->
  w ∉ pre ->
  build_vocab examples !! w = Some (Z.of_nat (distinct pre)).
Proof.
  intros Hall Hw. rewrite build_vocab_flat, Hall, fold_left_app. simpl.
  apply add_words_keep.
  destruct (add_words_from_empty pre) as [Hdom Hidx]. simpl in Hdom, Hidx.
  destruct (fold_left add_word pre (∅, 0%Z)) as [vocab index] eqn:E.
  simpl in *. subst index.
  assert (Hnone : vocab !! w = None).
  { apply not_elem_of_dom. rewrite Hdom. now rewrite elem_of_list_to_set. }
  rewrite Hnone. simpl. apply lookup_insert_eq.
Qed.

Lemma build_vocab_first_occurrence_witness :
  all_words scenario_examples
  = ["good"; "movie"]%string ++ "bad"%string :: ["movie"]%string /\
  build_vocab scenario_examples !! "bad"%string
  = Some (Z.of_nat (distinct ["good"; "movie"]%string)).
Proof.
  split; [reflexivity|].
  apply (build_vocab_first_occurrence scenario_examples
           ["good"; "movie"]%string ["movie"]%string "bad"%string).
  - reflexivity.
  - intros H. apply list_elem_of_In in H. simpl in H.
    destruct H as [H|[H|[]]]; discriminate.
Defined.

Lemma add_word_onto st word :
  (forall i, (0 <= i < st.2)%Z -> exists w, st.1 !! w = Some i) ->
  st.2 = Z.of_nat (size st.1) ->
  forall i, (0 <= i < (add_word st word).2)%Z ->
    exists w, (add_word st word).1 !! w = Some i.
Proof.
  destruct st as [vocab index]. unfold add_word. simpl. intros Honto Hsize.
  destruct (vocab !! word) eqn:Hw; simpl; [assumption|].
  intros i Hi. destruct (decide (i = index)) as [->|Hne].
  - exists word. apply lookup_insert_eq.
  - destruct (Honto i) as [w Hwi]; [lia|]. exists w.
    rewrite lookup_insert_ne; [assumption | congruence].
Qed.

Lemma add_words_onto ws st :
  vocab_inv st ->
  (forall i, (0 <= i < st.2)%Z -> exists w, st.1 !! w = Some i) ->
  forall i, (0 <= i < (fold_left add_word ws st).2)%Z ->
    exists w, (fold_left add_word ws st).1 !! w = Some i.
Proof.
  revert st. induction ws as [|w ws IH]; intros st Hinv Honto; simpl;
    [assumption|].
  apply IH; [now apply add_word_inv|].
  apply add_word_onto; [assumption | apply Hinv].
Qed.

Lemma vocab_inv_empty : vocab_inv (∅, 0%Z).
Proof.
  unfold vocab_inv. simpl. split; [reflexivity|].
  split; intros *; rewrite lookup_empty; discriminate.
Qed.

Lemma build_vocab_dom examples :
  dom (build_vocab examples) = list_to_set (all_words examples).
Proof.
  rewrite build_vocab_flat.
  now destruct (add_words_from_empty (all_words examples)) as [-> _].
Qed.

Lemma build_vocab_size examples :
  size (build_vocab examples) = distinct (all_words examples).
Proof. unfold distinct. now rewrite <- build_vocab_dom, size_dom. Qed.

Lemma build_vocab_onto examples (i : Z) :
  (0 <= i < Z.of_nat (size (build_vocab examples)))%Z ->
  exists w, build_vocab examples !! w = Some i.
Proof.
  intros Hi. rewrite build_vocab_flat.
  apply (add_words_onto (all_words examples) (∅, 0%Z) vocab_inv_empty).
  - simpl. intros j Hj. lia.
  - destruct (add_words_from_empty (all_words examples)) as [_ Hidx].
    simpl in Hidx. rewrite Hidx, <- build_vocab_size. exact Hi.
Qed.

(** X3.  The vocabulary has one entry per distinct word, and its indices
    are [0 .. n-1], each the index of exactly one word. *)
Theorem build_vocab_indices (examples : list SentimentExample) :
  size (build_vocab examples) = distinct (all_words examples) /\
  (forall w i, build_vocab examples !! w = Some i ->
     (0 <= i < Z.of_nat (size (build_vocab examples)))%Z) /\
  (forall i, (0 <= i < Z.of_nat (size (build_vocab examples)))%Z ->
     exists w, build_vocab examples !! w = Some i /\
       forall w', build_vocab examples !! w' = Some i -> w' = w).
Proof.
  destruct (build_vocab_wf examples) as [Hrange Hinj].
  split; [apply build_vocab_size|]. split; [exact Hrange|].
  intros i Hi. destruct (build_vocab_onto examples i Hi) as [w Hw].
  exists w. split; [exact Hw|].
  intros w' Hw'. now apply (Hinj w' w i).
Qed.

Lemma add_word_known st word :
  is_Some (st.1 !! word) -> add_word st word = st.
Proof.
  destruct st as [vocab index]. simpl. intros [i Hi].
  unfold add_word. now rewrite Hi.
Qed.

Lemma add_words_known ws st :
  (forall w, w ∈ ws -> is_Some (st.1 !! w)) ->
  fold_left add_word ws st = st.
Proof.
  induction ws as [|w ws IH]; intros H; simpl; [reflexivity|].
  rewrite add_word_known by (apply H; left).
  apply IH. intros w' Hw'. apply H. now right.
Qed.

Lemma all_words_app ex ex' :
  all_words (ex ++ ex') = all_words ex ++ all_words ex'.
Proof. unfold all_words. now rewrite map_app, concat_app. Qed.

(** X4.  Further examples leave the indices of the words already read as
    they are. *)
Theorem build_vocab_extends (ex ex' : list SentimentExample) (w : string)
    (i : Z) :
  build_vocab ex !! w = Some i ->
  build_vocab (ex ++ ex') !! w = Some i.
Proof.
  rewrite !build_vocab_flat, all_words_app, fold_left_app.
  apply add_words_keep.
Qed.

Lemma build_vocab_extends_witness :
  build_vocab scenario_examples !! "movie"%string = Some 1%Z /\
  build_vocab (scenario_examples
               ++ [mkExample ["a"; "movie"; "review"]%string 1])
    !! "movie"%string = Some 1%Z.
Proof.
  assert (H : build_vocab scenario_examples !! "movie"%string = Some 1%Z)
    by (vm_compute; reflexivity).
  split; [exact H|].
  exact (build_vocab_extends scenario_examples
           [mkExample ["a"; "movie"; "review"]%string 1]
           "movie"%string 1%Z H).
Defined.

(** X5.  Examples made of words already read add nothing: the vocabulary
    is the same, whatever their labels. *)
Theorem build_vocab_known_words (ex ex' : list SentimentExample) :
  (forall w, w ∈ all_words ex' -> w ∈ all_words ex) ->
  build_vocab (ex ++ ex') = build_vocab ex.
Proof.
  intros H. rewrite !build_vocab_flat, all_words_app, fold_left_app.
  f_equal. apply add_words_known. intros w Hw.
  apply elem_of_dom.
  destruct (add_words_from_empty (all_words ex)) as [Hdom _]. simpl in Hdom.
  rewrite Hdom, elem_of_list_to_set. now apply H.
Qed.

Lemma build_vocab_known_words_witness :
  build_vocab (scenario_examples ++ [mkExample ["movie"; "good"]%string 0])
  = build_vocab scenario_examples.
Proof.
  apply (build_vocab_known_words scenario_examples
           [mkExample ["movie"; "good"]%string 0]).
  intros w Hw. apply list_elem_of_In in Hw. apply list_elem_of_In.
  simpl in *. tauto.
Defined.

(** ** The vectorizer on any dictionary *)

Lemma py_index_lt (n : nat) (i : Z) (k : nat) :
  py_index n i = Ok k -> k < n.
Proof.
  unfold py_index.
  destruct ((0 <=? i)%Z && (i <? Z.of_nat n)%Z) eqn:E1.
  - apply andb_true_iff in E1 as [H1 H2].
    apply Z.leb_le in H1. apply Z.ltb_lt in H2. intros [= <-]. lia.
  - destruct ((- Z.of_nat n <=? i)%Z && (i <? 0)%Z) eqn:E2;
      [|now destruct (fits_int64 i)].
    apply andb_true_iff in E2 as [H1 H2].
    apply Z.leb_le in H1. apply Z.ltb_lt in H2. intros [= <-]. lia.
Qed.

Lemma py_index_raise (n : nat) (i : Z) (e : exn) :
  py_index n i = Raise e ->
  ~ (- Z.of_nat n <= i < Z.of_nat n)%Z /\
  e = if fits_int64 i then IndexError else ValueError EmptyString.
Proof.
  unfold py_index.
  destruct (Z.leb_spec 0 i), (Z.ltb_spec i (Z.of_nat n)),
    (Z.leb_spec (- Z.of_nat n) i), (Z.ltb_spec i 0);
    cbn [andb]; try discriminate;
    destruct (fits_int64 i); intros [= <-]; (split; [lia | reflexivity]).
Qed.

Lemma py_index_outside (n : nat) (i : Z) :
  ~ (- Z.of_nat n <= i < Z.of_nat n)%Z ->
  py_index n i
  = Raise (if fits_int64 i then IndexError else ValueError EmptyString).
Proof.
  intros H. unfold py_index.
  destruct (Z.leb_spec 0 i), (Z.ltb_spec i (Z.of_nat n)),
    (Z.leb_spec (- Z.of_nat n) i), (Z.ltb_spec i 0);
    cbn [andb]; try lia; now destruct (fits_int64 i).
Qed.

Lemma first_error_app vocab n (text1 text2 : list string) :
  first_error vocab n (text1 ++ text2)
  = match first_error vocab n text1 with
    | Some e => Some e
    | None => first_error vocab n text2
    end.
Proof.
  induction text1 as [|a text1 IH]; simpl; [reflexivity|].
  now destruct (token_error vocab n a).
Qed.

Lemma first_error_none vocab n (text : list string) :
  first_error vocab n text = None
  <-> existsb (out_of_range vocab n) text = false.
Proof.
  induction text as [|a text IH]; simpl; [tauto|].
  unfold token_error, out_of_range.
  destruct (vocab !! a) as [i|]; [|exact IH].
  destruct (py_index n i); [exact IH|].
  simpl. split; discriminate.
Qed.

(** The exception raised is that of a token sent outside of the vector. *)
Lemma first_error_some vocab n (text : list string) (e : exn) :
  first_error vocab n text = Some e ->
  exists t i, t ∈ text /\ vocab !! t = Some i /\ py_index n i = Raise e.
Proof.
  induction text as [|a text IH]; simpl; [discriminate|].
  destruct (token_error vocab n a) as [e'|] eqn:Ha.
  - intros [= ->]. unfold token_error in Ha.
    destruct (vocab !! a) as [i|] eqn:Hi; [|discriminate].
    destruct (py_index n i) as [k|e''] eqn:Hk; [discriminate|].
    injection Ha as ->. exists a, i. split; [apply list_elem_of_here|].
    now split.
  - intros H. destruct (IH H) as (t & i & Ht & Hi & Hk).
    exists t, i. split; [now apply list_elem_of_further|]. now split.
Qed.

Lemma insert_map_seq {A} (g : nat -> A) (x : A) (n k : nat) :
  k < n ->
  <[k := x]> (map g (seq 0 n))
  = map (fun j => if j =? k then x else g j) (seq 0 n).
Proof.
  intros Hk. apply list_eq. intros j.
  destruct (decide (j < n)) as [Hj|Hj].
  - rewrite list_lookup_fmap, lookup_seq_lt by assumption. simpl.
    destruct (j =? k) eqn:E.
    + apply Nat.eqb_eq in E. subst j.
      rewrite list_lookup_insert_eq; [reflexivity|].
      now rewrite length_map, length_seq.
    + apply Nat.eqb_neq in E.
      rewrite list_lookup_insert_ne by congruence.
      rewrite list_lookup_fmap, lookup_seq_lt by assumption. reflexivity.
  - rewrite !lookup_ge_None_2; [reflexivity | |];
      rewrite ?length_insert, length_map, length_seq; lia.
Qed.

Lemma alter_map_seq {A} (f : A -> A) (g : nat -> A) (n k : nat) :
  alter f k (map g (seq 0 n))
  = map (fun j => if j =? k then f (g j) else g j) (seq 0 n).
Proof.
  apply list_eq. intros j.
  destruct (decide (j < n)) as [Hj|Hj].
  - rewrite list_lookup_fmap, lookup_seq_lt by assumption. simpl.
    destruct (j =? k) eqn:E.
    + apply Nat.eqb_eq in E. subst j.
      rewrite list_lookup_alter_eq, list_lookup_fmap, lookup_seq_lt
        by assumption. reflexivity.
    + apply Nat.eqb_neq in E.
      rewrite list_lookup_alter_ne by congruence.
      rewrite list_lookup_fmap, lookup_seq_lt by assumption. reflexivity.
  - rewrite !lookup_ge_None_2; [reflexivity | |];
      rewrite ?length_alter, length_map, length_seq; lia.
Qed.

Lemma hits_snoc vocab n text a j :
  hits vocab n (text ++ [a]) j
  = hits vocab n text j + (if token_hits vocab n j a then 1 else 0).
Proof.
  unfold hits. rewrite List.filter_app, length_app. simpl.
  destruct (token_hits vocab n j a); reflexivity.
Qed.

(** The vector [bag_of_words] returns, in closed form, for any dictionary:
    the exception when a token is sent outside of the vector, otherwise the
    entries given by the number of tokens sent to each position. *)
Lemma bag_of_words_closed_form (vocab : gmap string Z) (binary : bool)
    (text : list string) :
  bag_of_words text vocab binary
  = match first_error vocab (size vocab) text with
    | Some e => Raise e
    | None =>
        Ok (map (fun j => hit_entry binary (hits vocab (size vocab) text j))
                (seq 0 (size vocab)))
    end.
Proof.
  unfold bag_of_words.
  induction text as [|a text IH] using rev_ind.
  - simpl. f_equal. unfold zeros. apply list_eq. intros j.
    destruct (decide (j < size vocab)) as [Hj|Hj].
    + rewrite lookup_replicate_2, list_lookup_fmap, lookup_seq_lt
        by assumption.
      simpl. unfold hit_entry, hits. simpl. now destruct binary.
    + rewrite !lookup_ge_None_2; [reflexivity | |];
        rewrite ?length_replicate, ?length_map, ?length_seq; lia.
  - rewrite for_fold_app, IH, first_error_app.
    destruct (first_error vocab (size vocab) text); [reflexivity|].
    cbn [bind first_error for_fold]. unfold bow_step, token_error.
    rewrite length_map, length_seq.
    destruct (vocab !! a) as [i|] eqn:Ha.
    + destruct (py_index (size vocab) i) as [k|e] eqn:Hk; cbn [bind].
      * pose proof (py_index_lt _ _ _ Hk) as Hlt.
        assert (Hhit : forall j, token_hits vocab (size vocab) j a
                                 = (k =? j)).
        { intros j. unfold token_hits. now rewrite Ha, Hk. }
        destruct binary; cbn [bind]; f_equal.
        -- rewrite insert_map_seq by assumption. apply map_ext. intros j.
           rewrite hits_snoc, Hhit, (Nat.eqb_sym j k).
           unfold hit_entry. destruct (k =? j).
           ++ now replace (0 <? hits vocab (size vocab) text j + 1)
                with true by (symmetry; apply Nat.ltb_lt; lia).
           ++ now rewrite Nat.add_0_r.
        -- rewrite alter_map_seq. apply map_ext. intros j.
           rewrite hits_snoc, Hhit, (Nat.eqb_sym j k).
           unfold hit_entry. destruct (k =? j).
           ++ rewrite of_nat_succ. f_equal. lia.
           ++ now rewrite Nat.add_0_r.
      * reflexivity.
    + cbn [bind]. f_equal. apply map_ext. intros j. rewrite hits_snoc.
      unfold token_hits. rewrite Ha. now rewrite Nat.add_0_r.
Qed.

(** X6.  On any dictionary [bag_of_words] raises exactly when a token of
    the text has an index outside of [-n .. n-1], [n] being the number of
    entries of the dictionary.  The exception is that of such a token:
    [IndexError] when its index fits in 64 bits, [ValueError] otherwise;
    so [IndexError] and nothing else when every index fits. *)
Theorem bag_of_words_index_error (vocab : gmap string Z) (binary : bool)
    (text : list string) :
  ((exists e, bag_of_words text vocab binary = Raise e)
   <-> exists t i, t ∈ text /\ vocab !! t = Some i /\
         ~ (- Z.of_nat (size vocab) <= i < Z.of_nat (size vocab))%Z) /\
  (forall e, bag_of_words text vocab binary = Raise e ->
     exists t i, t ∈ text /\ vocab !! t = Some i /\
       ~ (- Z.of_nat (size vocab) <= i < Z.of_nat (size vocab))%Z /\
       ((fits_int64 i = true /\ e = IndexError) \/
        (fits_int64 i = false /\ exists msg, e = ValueError msg))) /\
  ((forall t i, t ∈ text -> vocab !! t = Some i -> fits_int64 i = true) ->
   forall e, bag_of_words text vocab binary = Raise e -> e = IndexError).
Proof.
  assert (Hraise : forall e, bag_of_words text vocab binary = Raise e ->
            exists t i, t ∈ text /\ vocab !! t = Some i /\
              ~ (- Z.of_nat (size vocab) <= i < Z.of_nat (size vocab))%Z /\
              ((fits_int64 i = true /\ e = IndexError) \/
               (fits_int64 i = false /\ exists msg, e = ValueError msg))).
  { intros e. rewrite bag_of_words_closed_form.
    destruct (first_error vocab (size vocab) text) as [e'|] eqn:E;
      [|discriminate].
    intros [= ->].
    destruct (first_error_some _ _ _ _ E) as (t & i & Ht & Hi & Hk).
    destruct (py_index_raise _ _ _ Hk) as [Hout He].
    exists t, i. repeat (split; [assumption|]).
    destruct (fits_int64 i); [left | right; split; eauto]; now split. }
  split; [|split; [exact Hraise|]].
  - split.
    + intros [e He]. destruct (Hraise e He) as (t & i & Ht & Hi & Hout & _).
      now exists t, i.
    + intros (t & i & Ht & Hi & Hout).
      rewrite bag_of_words_closed_form.
      destruct (first_error vocab (size vocab) text) as [e|] eqn:E;
        [now exists e|].
      exfalso. apply first_error_none in E.
      assert (Hex : existsb (out_of_range vocab (size vocab)) text = true).
      { apply existsb_exists. exists t. split; [now apply list_elem_of_In|].
        unfold out_of_range.
        now rewrite Hi, (py_index_outside _ _ Hout). }
      congruence.
  - intros Hfit e He.
    destruct (Hraise e He) as (t & i & Ht & Hi & _ & [[_ ->]|[Hno _]]);
      [reflexivity|].
    rewrite (Hfit t i Ht Hi) in Hno. discriminate.
Qed.

Lemma bag_of_words_index_error_witness :
  exists t i msg,
    t ∈ ["a"; "b"]%string /\
    (<["a"%string := 0%Z]> (<["b"%string := (2 ^ 63)%Z]> ∅)
     : gmap string Z) !! t = Some i /\
    fits_int64 i = false /\
    bag_of_words ["a"; "b"]%string
      (<["a"%string := 0%Z]> (<["b"%string := (2 ^ 63)%Z]> ∅)) false
    = Raise (ValueError msg).
Proof.
  assert (H : bag_of_words ["a"; "b"]%string
                (<["a"%string := 0%Z]> (<["b"%string := (2 ^ 63)%Z]> ∅))
                false
              = Raise (ValueError EmptyString))
    by (vm_compute; reflexivity).
  destruct (proj1 (proj2 (bag_of_words_index_error _ false _)) _ H)
    as (t & i & Ht & Hi & _ & [[_ He]|[Hno _]]); [discriminate|].
  exists t, i, EmptyString. repeat (split; [assumption|]). exact H.
Defined.

(** X7.  When no token is sent outside of the vector, position [j] holds
    the number of tokens whose index is [j], or [j - n] counted from the
    end, and in binary mode 1 when there is such a token, 0 otherwise.
    Words that share an index share the entry. *)
Theorem bag_of_words_any_vocab (vocab : gmap string Z) (binary : bool)
    (text : list string) (v : list float) :
  bag_of_words text vocab binary = Ok v ->
  length v = size vocab /\
  forall j, j < size vocab ->
    v !! j
    = Some (let h := length (List.filter
                               (fun t =>
                                  match vocab !! t with
                                  | Some i =>
                                      bool_decide
                                        (i = Z.of_nat j \/
                                         i = (Z.of_nat j
                                              - Z.of_nat (size vocab))%Z)
                                  | None => false
                                  end) text) in
            if binary then (if 0 <? h then Fin 1 else Fin 0)
            else Fin (INR h)).
Proof.
  rewrite bag_of_words_closed_form.
  destruct (first_error vocab (size vocab) text); [discriminate|].
  intros [= <-]. split; [now rewrite length_map, length_seq|].
  intros j Hj. rewrite list_lookup_fmap, lookup_seq_lt by assumption.
  simpl. f_equal. unfold hit_entry, hits, fone, fzero, of_nat.
  replace (List.filter (token_hits vocab (size vocab) j) text)
    with (List.filter
            (fun t => match vocab !! t with
                      | Some i =>
                          bool_decide
                            (i = Z.of_nat j \/
                             i = (Z.of_nat j - Z.of_nat (size vocab))%Z)
                      | None => false
                      end) text); [reflexivity|].
  apply filter_ext. intros t. unfold token_hits.
  destruct (vocab !! t) as [i|]; [|reflexivity].
  unfold py_index.
  destruct (fits_int64 i),
    (Z.leb_spec 0 i), (Z.ltb_spec i (Z.of_nat (size vocab))),
    (Z.leb_spec (- Z.of_nat (size vocab)) i), (Z.ltb_spec i 0);
    simpl; try lia;
    first [ destruct (Nat.eqb_spec (Z.to_nat i) j);
            [apply bool_decide_eq_true_2 | apply bool_decide_eq_false_2]; lia
          | destruct (Nat.eqb_spec (Z.to_nat (Z.of_nat (size vocab) + i)) j);
            [apply bool_decide_eq_true_2 | apply bool_decide_eq_false_2]; lia
          | apply bool_decide_eq_false_2; lia ].
Qed.

Ltac fin_entries :=
  repeat match goal with
         | |- Ok _ = Ok _ => f_equal
         | |- _ :: _ = _ :: _ => f_equal
         | |- Fin _ = Fin _ => f_equal; lra
         end.

Lemma bag_of_words_any_vocab_witness :
  bag_of_words ["a"; "b"; "c"; "a"]%string
    (<["a"%string := (-1)%Z]> (<["b"%string := 2%Z]>
                                 (<["c"%string := 0%Z]> ∅))) false
  = Ok [Fin 1; Fin 0; Fin 3] /\
  [Fin 1; Fin 0; Fin 3] !! 2 = Some (Fin (INR 3)).
Proof.
  assert (H : bag_of_words ["a"; "b"; "c"; "a"]%string
                (<["a"%string := (-1)%Z]> (<["b"%string := 2%Z]>
                                             (<["c"%string := 0%Z]> ∅)))
                false
              = Ok [Fin 1; Fin 0; Fin 3])
    by (vm_compute; fin_entries).
  split; [exact H|].
  exact (proj2 (bag_of_words_any_vocab _ false _ _ H) 2 (le_n 3)).
Defined.

Lemma existsb_perm {A} (f : A -> bool) (l l' : list A) :
  Permutation l l' -> existsb f l = existsb f l'.
Proof.
  induction 1 as [|x l l' _ IH|x y l|l l' l'' _ IH1 _ IH2]; simpl.
  - reflexivity.
  - now rewrite IH.
  - destruct (f x), (f y); reflexivity.
  - now rewrite IH1.
Qed.

Lemma filter_length_perm {A} (f : A -> bool) (l l' : list A) :
  Permutation l l' ->
  length (List.filter f l) = length (List.filter f l').
Proof.
  induction 1 as [|x l l' _ IH|x y l|l l' l'' _ IH1 _ IH2]; simpl.
  - reflexivity.
  - destruct (f x); simpl; now rewrite IH.
  - destruct (f x), (f y); reflexivity.
  - now rewrite IH1.
Qed.

(** X8.  The vector does not depend on the order of the tokens: of two
    texts with the same tokens, in any order, on any dictionary, either
    both raise or both give the same vector.  (Which exception is raised
    depends on the order: it is that of the first token sent outside of the
    vector.) *)
Theorem bag_of_words_permutation (vocab : gmap string Z) (binary : bool)
    (text text' : list string) :
  Permutation text text' ->
  match bag_of_words text vocab binary, bag_of_words text' vocab binary with
  | Ok v, Ok v' => v = v'
  | Raise _, Raise _ => True
  | _, _ => False
  end.
Proof.
  intros Hp. rewrite !bag_of_words_closed_form.
  pose proof (first_error_none vocab (size vocab) text) as H.
  pose proof (first_error_none vocab (size vocab) text') as H'.
  rewrite (existsb_perm _ _ _ Hp) in H.
  destruct (first_error vocab (size vocab) text) as [e|],
    (first_error vocab (size vocab) text') as [e'|]; try exact I.
  - destruct H as [_ H]. destruct H' as [H' _].
    specialize (H (H' eq_refl)). discriminate.
  - destruct H as [H _]. destruct H' as [_ H'].
    specialize (H' (H eq_refl)). discriminate.
  - apply map_ext. intros j. unfold hits.
    now rewrite (filter_length_perm _ _ _ Hp).
Qed.

Lemma bag_of_words_permutation_witness :
  match bag_of_words ["bad"; "movie"; "bad"]%string scenario_vocab false,
        bag_of_words ["movie"; "bad"; "bad"]%string scenario_vocab false with
  | Ok v, Ok v' => v = v'
  | Raise _, Raise _ => True
  | _, _ => False
  end.
Proof.
  apply (bag_of_words_permutation scenario_vocab false
           ["bad"; "movie"; "bad"]%string ["movie"; "bad"; "bad"]%string).
  apply perm_swap.
Defined.

Lemma sum_indicator_eqb (k n : nat) :
  k < n ->
  fold_right Nat.add 0 (map (fun j => if k =? j then 1 else 0) (seq 0 n)) = 1.
Proof.
  intros H. etransitivity; [|apply (sum_indicator k n H)].
  f_equal. apply map_ext. intros j.
  destruct (Nat.eqb_spec k j), (Nat.eq_dec k j);
    first [reflexivity | contradiction].
Qed.

Lemma hits_total vocab n text :
  existsb (out_of_range vocab n) text = false ->
  fold_right Nat.add 0 (map (hits vocab n text) (seq 0 n))
  = length (in_vocabulary vocab text).
Proof.
  induction text as [|a text IH]; intros Hok.
  - unfold hits. simpl. apply sum_zero.
  - simpl in Hok. apply orb_false_iff in Hok as [Ha Hok].
    specialize (IH Hok).
    rewrite (map_ext _ (fun j => (if token_hits vocab n j a then 1 else 0)
                                 + hits vocab n text j)).
    + rewrite sum_pointwise_add, IH.
      unfold in_vocabulary, token_hits, out_of_range in *. simpl.
      destruct (vocab !! a) as [i|] eqn:Hi.
      * rewrite bool_decide_eq_true_2 by eauto. simpl.
        destruct (py_index n i) as [k|e] eqn:Hk; [|discriminate].
        now rewrite (sum_indicator_eqb k n (py_index_lt _ _ _ Hk)).
      * rewrite bool_decide_eq_false_2 by (intros [? ?]; discriminate).
        now rewrite sum_zero.
    + intros j. unfold hits. simpl.
      destruct (token_hits vocab n j a); reflexivity.
Qed.

(** X9.  In count mode the entries add up to the number of tokens of the
    text that the dictionary knows. *)
Theorem bag_of_words_total (vocab : gmap string Z) (text : list string)
    (v : list float) :
  bag_of_words text vocab false = Ok v ->
  tsum v = Fin (INR (length (in_vocabulary vocab text))).
Proof.
  rewrite bag_of_words_closed_form.
  destruct (first_error vocab (size vocab) text) eqn:E; [discriminate|].
  apply first_error_none in E.
  intros [= <-]. unfold hit_entry, of_nat.
  rewrite <- (map_map (hits vocab (size vocab) text)
                      (fun h => Fin (INR h))).
  rewrite <- (map_map INR Fin), tsum_Fin, Rsum_INR.
  now rewrite hits_total.
Qed.

Lemma bag_of_words_total_witness :
  bag_of_words ["good"; "old"; "movie"; "good"]%string scenario_vocab false
  = Ok [Fin 2; Fin 1; Fin 0] /\
  tsum [Fin 2; Fin 1; Fin 0]
  = Fin (INR (length (in_vocabulary scenario_vocab
                        ["good"; "old"; "movie"; "good"]%string))).
Proof.
  assert (H : bag_of_words ["good"; "old"; "movie"; "good"]%string
                scenario_vocab false
              = Ok [Fin 2; Fin 1; Fin 0])
    by (vm_compute; fin_entries).
  split; [exact H|].
  exact (bag_of_words_total scenario_vocab _ _ H).
Defined.

Lemma clamp_of_nat h : clamp (of_nat h) = if 0 <? h then fone else fzero.
Proof.
  unfold clamp, of_nat, fzero. simpl. destruct (Nat.ltb_spec 0 h) as [H|H].
  - rewrite Rltb_true; [reflexivity|]. now apply lt_0_INR.
  - assert (h = 0) by lia. subst h. simpl.
    now rewrite Rltb_false by lra.
Qed.

(** X10.  The binary vector is the count vector with every positive entry
    replaced by 1; both modes raise on the same texts. *)
Theorem binary_is_clamped_count (vocab : gmap string Z)
    (text : list string) :
  bag_of_words text vocab true
  = match bag_of_words text vocab false with
    | Ok v => Ok (map clamp v)
    | Raise e => Raise e
    end.
Proof.
  rewrite !bag_of_words_closed_form.
  destruct (first_error vocab (size vocab) text); [reflexivity|].
  f_equal. rewrite map_map. apply map_ext. intros j.
  unfold hit_entry. now rewrite clamp_of_nat.
Qed.

Lemma zip_add_map {A} (f g : A -> float) (l : list A) :
  zip_add (map f l) (map g l) = map (fun x => fadd (f x) (g x)) l.
Proof. induction l as [|x l IH]; simpl; [reflexivity|]. now rewrite IH. Qed.

(** X11.  In count mode the vector of a concatenation is the entry-wise
    sum of the vectors of its parts. *)
Theorem bag_of_words_app (vocab : gmap string Z) (text1 text2 : list string)
    (v1 v2 : list float) :
  bag_of_words text1 vocab false = Ok v1 ->
  bag_of_words text2 vocab false = Ok v2 ->
  bag_of_words (text1 ++ text2) vocab false = Ok (zip_add v1 v2).
Proof.
  rewrite !bag_of_words_closed_form, first_error_app.
  destruct (first_error vocab (size vocab) text1); [discriminate|].
  destruct (first_error vocab (size vocab) text2); [discriminate|].
  intros [= <-] [= <-]. simpl. f_equal.
  rewrite zip_add_map. apply map_ext. intros j.
  unfold hit_entry, hits, of_nat.
  rewrite List.filter_app, length_app, plus_INR. reflexivity.
Qed.

Lemma bag_of_words_app_witness :
  bag_of_words (["good"; "movie"]%string ++ ["bad"; "movie"]%string)
    scenario_vocab false
  = Ok (zip_add [Fin 1; Fin 1; Fin 0] [Fin 0; Fin 1; Fin 1]).
Proof.
  apply (bag_of_words_app scenario_vocab ["good"; "movie"]%string
           ["bad"; "movie"]%string).
  - vm_compute; fin_entries.
  - vm_compute; fin_entries.
Defined.

(** X12.  Vectorizing, in count mode, the words a vocabulary was built
    from raises nothing and leaves no entry at zero: the vector has one
    entry per distinct word and each is at least 1. *)
Theorem bag_of_words_own_vocab (examples : list SentimentExample) :
  exists v : list float,
    bag_of_words (all_words examples) (build_vocab examples) false = Ok v /\
    length v = distinct (all_words examples) /\
    forall j x, v !! j = Some x -> exists k, x = Fin (INR k) /\ 1 <= k.
Proof.
  destruct (bag_of_words_loop (build_vocab examples) false
              (all_words examples) (build_vocab_wf examples))
    as (v & Hv & Hlen & Hent & _).
  exists v. split; [exact Hv|].
  split; [now rewrite Hlen, build_vocab_size|].
  intros j x Hj.
  destruct (build_vocab_onto examples (Z.of_nat j)) as [w Hw].
  { apply lookup_lt_Some in Hj. lia. }
  specialize (Hent w _ Hw). rewrite Nat2Z.id, Hj in Hent.
  injection Hent as ->. unfold spec_bow_entry, of_nat.
  eexists. split; [reflexivity|].
  assert (Hin : In w (all_words examples)).
  { apply list_elem_of_In.
    apply (proj1 (elem_of_list_to_set (C := gset string) w
                    (all_words examples))).
    rewrite <- build_vocab_dom. apply elem_of_dom. eauto. }
  apply (count_occ_In String.string_dec) in Hin. lia.
Qed.

(** ** Training: failures and repeated calls *)

(** X13.  [fit] is not atomic.  On an empty training set it raises the
    [RuntimeError] of [torch.max], and with a number of labels that is not
    the number of rows the [IndexError] of the mask; in both cases
    [class_priors] and [vocab_size] are already overwritten while
    [conditional_probabilities] keeps its previous value. *)
Theorem fit_failure_state self X (labels : list nat) delta :
  fit self X [] delta
  = ({| class_priors := Some [];
        conditional_probabilities := conditional_probabilities self;
        vocab_size := Some (ncols X) |}, Raise RuntimeError) /\
  (labels <> [] -> length labels <> length (mrows X) ->
   fit self X labels delta
   = ({| class_priors := Some (estimate_class_priors labels);
         conditional_probabilities := conditional_probabilities self;
         vocab_size := Some (ncols X) |}, Raise IndexError)).
Proof.
  split; [reflexivity|].
  intros Hne Hlen. unfold fit.
  now rewrite estimate_conditional_probabilities_mask.
Qed.

Lemma fit_failure_state_witness :
  fit scenario_model scenario_features [] fone
  = ({| class_priors := Some [];
        conditional_probabilities := conditional_probabilities scenario_model;
        vocab_size := Some 3 |}, Raise RuntimeError) /\
  fit scenario_model scenario_features [1; 0; 1] fone
  = ({| class_priors := Some (estimate_class_priors [1; 0; 1]);
        conditional_probabilities := conditional_probabilities scenario_model;
        vocab_size := Some 3 |}, Raise IndexError).
Proof.
  destruct (fit_failure_state scenario_model scenario_features [1; 0; 1]
              fone) as [H1 H2].
  split; [exact H1|]. apply H2.
  - discriminate.
  - simpl. lia.
Defined.

(** X14.  A trained model on which [fit] is called again with an empty
    training set is broken by the failed call: its priors are an empty
    dictionary, so [predict] and [predict_proba] report a model that is not
    trained, and [estimate_class_posteriors] raises [KeyError] on class 0. *)
Theorem failed_refit_untrains m X delta (feature : list float) :
  trained m ->
  let m' := fst (fit m X [] delta) in
  predict m' feature = Raise (PyException untrained_msg2) /\
  predict_proba m' feature = Raise (PyException untrained_msg2) /\
  estimate_class_posteriors m' feature = Raise (KeyError 0).
Proof.
  intros (X0 & labels & delta0 & Ht). simpl.
  destruct (trained_by_inv _ _ _ _ Ht) as (_ & _ & ->).
  repeat split; reflexivity.
Qed.

Lemma failed_refit_untrains_witness :
  trained scenario_model /\
  predict (fst (fit scenario_model scenario_features [] fone)) scenario_query
  = Raise (PyException untrained_msg2) /\
  predict_proba (fst (fit scenario_model scenario_features [] fone))
    scenario_query
  = Raise (PyException untrained_msg2) /\
  estimate_class_posteriors
    (fst (fit scenario_model scenario_features [] fone)) scenario_query
  = Raise (KeyError 0).
Proof.
  split; [exact scenario_is_trained|].
  apply (failed_refit_untrains scenario_model scenario_features fone
           scenario_query).
  exact scenario_is_trained.
Defined.

(** X15.  A call of [fit] that raises nothing forgets the previous state of
    the object: the model is the one the same call leaves on a new
    object. *)
Theorem refit_forgets self X (labels : list nat) delta :
  snd (fit self X labels delta) = Ok tt ->
  fit self X labels delta = fit init X labels delta.
Proof.
  intros H. rewrite fit_outcome in H.
  destruct labels as [|l labels]; [discriminate|].
  destruct (length (l :: labels) =? length (mrows X)) eqn:E; [|discriminate].
  apply Nat.eqb_eq in E. now rewrite !fit_ok.
Qed.

Lemma refit_forgets_witness :
  snd (fit scenario_model scenario_features [0; 0] fone) = Ok tt /\
  fit scenario_model scenario_features [0; 0] fone
  = fit init scenario_features [0; 0] fone.
Proof.
  assert (H : snd (fit scenario_model scenario_features [0; 0] fone) = Ok tt)
    by (rewrite fit_outcome; reflexivity).
  split; [exact H|].
  exact (refit_forgets scenario_model scenario_features [0; 0] fone H).
Defined.

Lemma list_max_nat_In (labels : list nat) :
  labels <> [] -> In (list_max_nat labels) labels.
Proof.
  induction labels as [|l labels IH]; [congruence|]. intros _.
  destruct labels as [|l' labels'].
  - left. simpl. lia.
  - change (list_max_nat (l :: l' :: labels'))
      with (Nat.max l (list_max_nat (l' :: labels'))).
    destruct (Nat.max_spec l (list_max_nat (l' :: labels')))
      as [[_ ->]|[_ ->]].
    + right. apply IH. discriminate.
    + now left.
Qed.

(** X16.  Every prior is a number between 0 and 1, and the prior of a
    class is positive exactly when the class has an example; the last
    class always has one. *)
Theorem class_priors_range (labels : list nat) (c : nat) :
  labels <> [] -> c <= list_max_nat labels ->
  exists p : R,
    estimate_class_priors labels !! c = Some (Fin p) /\
    (0 <= p <= 1)%R /\
    ((0 < p)%R <-> In c labels) /\
    In (list_max_nat labels) labels.
Proof.
  intros Hne Hc. eexists. split; [now apply estimate_class_priors_lookup|].
  pose proof (length_nonempty labels Hne) as Hn.
  assert (Hpos : (0 < INR (length labels))%R).
  { apply lt_0_INR. destruct labels; [congruence | simpl; lia]. }
  pose proof (count_occ_bound Nat.eq_dec c labels) as Hb.
  apply le_INR in Hb.
  pose proof (pos_INR (count_occ Nat.eq_dec labels c)) as H0.
  split; [|split].
  - split.
    + apply Rmult_le_pos; [assumption|].
      left. now apply Rinv_0_lt_compat.
    + apply (Rmult_le_reg_r (INR (length labels))); [assumption|].
      unfold Rdiv. rewrite Rmult_assoc, Rinv_l by assumption. lra.
  - rewrite (count_occ_In Nat.eq_dec). split.
    + intros Hp. destruct (count_occ Nat.eq_dec labels c) eqn:E; [|lia].
      simpl in Hp. unfold Rdiv in Hp. rewrite Rmult_0_l in Hp. lra.
    + intros Hk. apply Rdiv_lt_0_compat; [|assumption].
      apply lt_0_INR. lia.
  - now apply list_max_nat_In.
Qed.

Lemma class_priors_range_witness :
  exists p : R,
    estimate_class_priors [0; 2; 2] !! 1 = Some (Fin p) /\
    (0 <= p <= 1)%R /\
    ((0 < p)%R <-> In 1 [0; 2; 2]) /\
    In 2 [0; 2; 2].
Proof.
  apply (class_priors_range [0; 2; 2] 1).
  - discriminate.
  - simpl. lia.
Defined.

(** ** Smoothing: classes without example, and no smoothing *)

Lemma filter_none {A} (f : A -> bool) (l : list A) :
  (forall x, In x l -> f x = false) -> List.filter f l = [].
Proof.
  induction l as [|x l IH]; intros H; simpl; [reflexivity|].
  rewrite H by now left. apply IH. intros y Hy. apply H. now right.
Qed.

Lemma spec_count_absent X (labels : list nat) c w :
  ~ In c labels -> spec_count X labels c w = Fin 0.
Proof.
  intros Hc. unfold spec_count.
  replace (List.filter (fun example => snd example =? c)
                       (combine (mrows X) labels)) with
    ([] : list (list float * nat)); [reflexivity|].
  symmetry. apply filter_none. intros [r l] Hin. simpl.
  apply in_combine_r in Hin. apply Nat.eqb_neq. congruence.
Qed.

Lemma Rsum_zero {A} (l : list A) : Rsum (map (fun _ => 0%R) l) = 0%R.
Proof. induction l; simpl; lra. Qed.

Lemma absent_class_total X (labels : list nat) c :
  ~ In c labels ->
  tsum (map (spec_count X labels c) (seq 0 (ncols X))) = Fin 0.
Proof.
  intros Hc.
  rewrite (map_ext _ (fun _ => Fin 0)) by (intros; now apply spec_count_absent).
  rewrite <- (map_map (fun _ => 0%R) Fin), tsum_Fin. now rewrite Rsum_zero.
Qed.

(** X17.  A class of [0 .. max(label)] without any example gets the
    uniform distribution over the vocabulary, whatever the features, for a
    smoothing parameter of moderate size, positive or negative, and a
    vocabulary of moderate size. *)
Theorem empty_class_uniform self X (labels : list nat) (d : R) (c : nat) :
  labels <> [] -> length labels = length (mrows X) ->
  c <= list_max_nat labels -> ~ In c labels ->
  moderate (Rabs d) -> (INR (ncols X) <= range_bound)%R ->
  exists m cond (cond_c : list float),
    fit self X labels (Fin d) = (m, Ok tt) /\
    conditional_probabilities m = Some cond /\
    cond !! c = Some cond_c /\
    length cond_c = ncols X /\
    forall w, w < ncols X -> cond_c !! w = Some (Fin (1 / INR (ncols X))).
Proof.
  intros Hne Hlen Hc Habs Hd' _.
  assert (Hd : d <> 0%R).
  { apply moderate_pos in Hd'. intros ->. rewrite Rabs_R0 in Hd'. lra. }
  eexists _, _, _.
  split; [now apply fit_ok|]. split; [reflexivity|].
  split; [rewrite list_lookup_fmap, lookup_seq_lt by lia; reflexivity|].
  split; [now rewrite length_map, length_seq|].
  intros w Hw. rewrite list_lookup_fmap, lookup_seq_lt by assumption.
  simpl. f_equal. unfold spec_smoothed.
  rewrite spec_count_absent, absent_class_total by assumption.
  assert (HV : (0 < INR (ncols X))%R) by (apply lt_0_INR; lia).
  cbn [fadd fmul of_nat]. rewrite fdiv_Fin.
  - f_equal. field. split; lra.
  - intros H0. rewrite Rplus_0_l in H0.
    apply Rmult_integral in H0. lra.
Qed.

Lemma empty_class_uniform_witness :
  exists m cond (cond_c : list float),
    fit init (mkMatrix 2 [[fone; fzero]; [fzero; fone]]) [0; 2] (Fin 1)
    = (m, Ok tt) /\
    conditional_probabilities m = Some cond /\
    cond !! 1 = Some cond_c /\
    length cond_c = 2 /\
    forall w, w < 2 -> cond_c !! w = Some (Fin (1 / INR 2)).
Proof.
  apply (empty_class_uniform init
           (mkMatrix 2 [[fone; fzero]; [fzero; fone]]) [0; 2] 1 1).
  - discriminate.
  - reflexivity.
  - simpl. lia.
  - simpl. lia.
  - rewrite Rabs_R1. exact moderate_one.
  - unfold range_bound. simpl. lra.
Defined.

(** X18.  Without smoothing ([delta = 0]) such a class gets [nan] for
    every word: the estimate is [0 / 0]. *)
Theorem empty_class_nan self X (labels : list nat) (c : nat) :
  labels <> [] -> length labels = length (mrows X) ->
  c <= list_max_nat labels -> ~ In c labels ->
  exists m cond (cond_c : list float),
    fit self X labels (Fin 0) = (m, Ok tt) /\
    conditional_probabilities m = Some cond /\
    cond !! c = Some cond_c /\
    length cond_c = ncols X /\
    forall w, w < ncols X -> cond_c !! w = Some NaN.
Proof.
  intros Hne Hlen Hc Habs. eexists _, _, _.
  split; [now apply fit_ok|]. split; [reflexivity|].
  split; [rewrite list_lookup_fmap, lookup_seq_lt by lia; reflexivity|].
  split; [now rewrite length_map, length_seq|].
  intros w Hw. rewrite list_lookup_fmap, lookup_seq_lt by assumption.
  simpl. f_equal. unfold spec_smoothed.
  rewrite spec_count_absent, absent_class_total by assumption.
  cbn [fadd fmul of_nat]. unfold fdiv, signed_inf.
  now rewrite !Reqb_true by lra.
Qed.

Lemma empty_class_nan_witness :
  exists m cond (cond_c : list float),
    fit init (mkMatrix 2 [[fone; fzero]; [fzero; fone]]) [0; 2] (Fin 0)
    = (m, Ok tt) /\
    conditional_probabilities m = Some cond /\
    cond !! 1 = Some cond_c /\
    length cond_c = 2 /\
    forall w, w < 2 -> cond_c !! w = Some NaN.
Proof.
  apply (empty_class_nan init
           (mkMatrix 2 [[fone; fzero]; [fzero; fone]]) [0; 2] 1).
  - discriminate.
  - reflexivity.
  - simpl. lia.
  - simpl. lia.
Defined.





(** ** Inference: the posteriors of a trained model *)

(** The posterior vector of a model trained with two classes or more, for
    a feature vector of the length of the vocabulary, and what [predict]
    and [predict_proba] make of it. *)
Lemma posteriors_explicit m X labels delta (feature : list float) :
  trained_by m X labels delta ->
  1 <= list_max_nat labels ->
  length feature = ncols X ->
  estimate_class_posteriors m feature
  = Ok [posterior_of X labels delta feature 0;
        posterior_of X labels delta feature 1] /\
  predict m feature
  = argmax [posterior_of X labels delta feature 0;
            posterior_of X labels delta feature 1] /\
  predict_proba m feature
  = Ok (softmax [posterior_of X labels delta feature 0;
                 posterior_of X labels delta feature 1]).
Proof.
  intros Ht Hmax Hf.
  destruct (trained_by_predict _ _ _ _ feature Ht) as [Hpred Hproba].
  destruct (trained_by_shape _ _ _ _ Ht)
    as (priors & cond & Hp & Hc & _ & Hlp & Hlc & Hrows).
  destruct (trained_by_inv _ _ _ _ Ht) as (Hne & Hlen & Hm).
  assert (Hb : broadcastable (length feature) (ncols X) = true)
    by (rewrite Hf; apply broadcastable_refl).
  destruct (posteriors_two_classes m (list_max_nat labels) (ncols X)
              priors cond Hp Hc Hlp Hlc Hrows feature Hmax Hb)
    as (lp0 & lp1 & Hest & H0 & H1).
  assert (Hlook : forall c, c <= list_max_nat labels ->
            priors !! c = Some (prior_of labels c) /\
            cond !! c = Some (cond_of X labels delta c)).
  { intros c Hcl.
    assert (Ep : priors = estimate_class_priors labels)
      by (rewrite Hm in Hp; cbn [class_priors] in Hp; congruence).
    assert (Ec : cond = map (cond_of X labels delta)
                            (seq 0 (S (list_max_nat labels))))
      by (rewrite Hm in Hc; cbn [conditional_probabilities] in Hc;
          unfold cond_of; congruence).
    rewrite Ep, Ec. split.
    - now apply estimate_class_priors_lookup.
    - rewrite list_lookup_fmap, lookup_seq_lt by lia. reflexivity. }
  destruct (Hlook 0) as [Hp0 Hc0]; [lia|].
  destruct (Hlook 1) as [Hp1 Hc1]; [lia|].
  rewrite (log_posterior_same_length (ncols X) priors cond Hrows
             feature 0 _ _ Hp0 Hc0 Hf) in H0.
  rewrite (log_posterior_same_length (ncols X) priors cond Hrows
             feature 1 _ _ Hp1 Hc1 Hf) in H1.
  injection H0 as <-. injection H1 as <-.
  rewrite Hpred, Hproba, Hest. repeat split; reflexivity.
Qed.

Lemma cond_of_positive X labels (d : R) c :
  nonneg_matrix X -> (0 < d)%R ->
  Forall finite_pos (cond_of X labels (Fin d) c).
Proof.
  intros HX Hd. unfold cond_of. apply Forall_map.
  apply List.Forall_forall. intros w Hw. apply in_seq in Hw.
  destruct (smoothed_pos X labels d c HX Hd w) as (p & -> & Hp); [lia|].
  exact Hp.
Qed.

Lemma tsum_cons x (l : list float) : tsum (x :: l) = fadd x (tsum l).
Proof. reflexivity. Qed.

Lemma likelihood_finite (feature cond_c : list float) :
  Forall is_finite feature -> Forall finite_pos cond_c ->
  is_finite (tsum (zip_mul feature (map flog cond_c))).
Proof.
  intros Hf. revert cond_c.
  induction Hf as [|x f Hx _ IH]; intros cond_c Hc; [exact I|].
  destruct Hc as [|y cond_c Hy Hc]; [exact I|].
  destruct x as [a| | |]; try contradiction.
  destruct y as [b| | |]; try contradiction. simpl in Hy.
  cbn [map zip_mul]. rewrite tsum_cons, flog_Fin by assumption.
  specialize (IH cond_c Hc).
  destruct (tsum (zip_mul f (map flog cond_c))); try contradiction.
  exact I.
Qed.

Lemma likelihood_zeros (cond_c : list float) :
  Forall finite_pos cond_c ->
  tsum (zip_mul (zeros (length cond_c)) (map flog cond_c)) = Fin 0.
Proof.
  induction 1 as [|y cond_c Hy _ IH]; [reflexivity|].
  destruct y as [b| | |]; try contradiction. simpl in Hy.
  cbn [length zeros replicate map zip_mul].
  rewrite tsum_cons, flog_Fin by assumption.
  unfold zeros in IH. rewrite IH. simpl. f_equal. lra.
Qed.

Lemma prior_of_zero labels c :
  count_occ Nat.eq_dec labels c = 0 -> flog (prior_of labels c) = NInf.
Proof.
  intros H. unfold prior_of. rewrite H. simpl INR.
  unfold flog. rewrite Reqb_true; [reflexivity|].
  unfold Rdiv. apply Rmult_0_l.
Qed.

Lemma prior_of_positive labels c :
  0 < count_occ Nat.eq_dec labels c ->
  flog (prior_of labels c)
  = Fin (ln (INR (count_occ Nat.eq_dec labels c) / INR (length labels))).
Proof.
  intros H. unfold prior_of. apply flog_Fin.
  pose proof (count_occ_bound Nat.eq_dec c labels).
  apply Rdiv_lt_0_compat; apply lt_0_INR; lia.
Qed.

(** X20.  A feature vector of zeros (a text without any vocabulary word)
    is classified by the priors alone: on a model trained on word counts
    with a smoothing parameter of moderate size, [predict] returns class 1
    when it has more training examples than class 0, and class 0
    otherwise. *)
Theorem predict_zero_vector m X labels (d : R) :
  trained_by m X labels (Fin d) ->
  moderate d -> count_matrix X ->
  1 <= list_max_nat labels ->
  predict m (zeros (ncols X))
  = Ok (if count_occ Nat.eq_dec labels 0 <? count_occ Nat.eq_dec labels 1
        then 1 else 0).
Proof.
  intros Ht Hd HX Hmax.
  apply moderate_pos in Hd. apply count_matrix_nonneg in HX.
  destruct (posteriors_explicit m X labels (Fin d) (zeros (ncols X)) Ht Hmax)
    as (_ & -> & _); [apply length_replicate|].
  assert (Hlik : forall c,
            posterior_of X labels (Fin d) (zeros (ncols X)) c
            = fadd (flog (prior_of labels c)) (Fin 0)).
  { intros c. unfold posterior_of, spec_log_posterior. f_equal.
    replace (ncols X) with (length (cond_of X labels (Fin d) c))
      by (unfold cond_of; now rewrite length_map, length_seq).
    apply likelihood_zeros. now apply cond_of_positive. }
  rewrite !Hlik. simpl. f_equal. unfold greater_or_nan.
  destruct (trained_by_inv _ _ _ _ Ht) as (Hne & _ & _).
  assert (Hn : (0 < INR (length labels))%R).
  { apply lt_0_INR. destruct labels; [congruence | simpl; lia]. }
  destruct (count_occ Nat.eq_dec labels 0) as [|k0] eqn:E0;
    destruct (count_occ Nat.eq_dec labels 1) as [|k1] eqn:E1.
  - rewrite !prior_of_zero by assumption. reflexivity.
  - rewrite (prior_of_zero labels 0) by assumption.
    rewrite (prior_of_positive labels 1) by lia. reflexivity.
  - rewrite (prior_of_zero labels 1) by assumption.
    rewrite (prior_of_positive labels 0) by lia. reflexivity.
  - rewrite (prior_of_positive labels 0), (prior_of_positive labels 1)
      by lia.
    rewrite E0, E1. cbn [fadd isnan andb orb negb flt].
    assert (H0 : (0 < INR (S k0) / INR (length labels))%R)
      by (apply Rdiv_lt_0_compat; [apply lt_0_INR; lia | assumption]).
    assert (H1 : (0 < INR (S k1) / INR (length labels))%R)
      by (apply Rdiv_lt_0_compat; [apply lt_0_INR; lia | assumption]).
    destruct (Nat.ltb_spec (S k0) (S k1)) as [Hlt|Hge].
    + rewrite Rltb_true; [reflexivity|].
      apply lt_INR in Hlt.
      assert (INR (S k0) / INR (length labels)
              < INR (S k1) / INR (length labels))%R.
      { unfold Rdiv. apply Rmult_lt_compat_r; [|assumption].
        now apply Rinv_0_lt_compat. }
      pose proof (ln_increasing _ _ H0 H). lra.
    + rewrite Rltb_false; [reflexivity|].
      apply le_INR in Hge.
      assert (INR (S k1) / INR (length labels)
              <= INR (S k0) / INR (length labels))%R.
      { unfold Rdiv. apply Rmult_le_compat_r; [|assumption].
        left. now apply Rinv_0_lt_compat. }
      destruct H as [H|H];
        [pose proof (ln_increasing _ _ H1 H); lra | rewrite H; lra].
Qed.

Lemma scenario_counts : count_matrix scenario_features.
Proof.
  unfold count_matrix, count_vector, count_entry, range_bound.
  cbn [scenario_features mrows ncols length].
  split; [|split; simpl; lra].
  repeat constructor;
    first [ exists 1; split; [reflexivity | simpl; lra]
          | exists 0; split; [reflexivity | simpl; lra] ].
Qed.

Lemma scenario_query_counts : count_vector scenario_query.
Proof.
  unfold count_vector, count_entry, range_bound, scenario_query.
  repeat constructor;
    first [ exists 1; split; [reflexivity | simpl; lra]
          | exists 0; split; [reflexivity | simpl; lra] ].
Qed.

Lemma predict_zero_vector_witness :
  trained_by scenario_model scenario_features scenario_labels (Fin 1) /\
  predict scenario_model (zeros 3)
  = Ok (if count_occ Nat.eq_dec scenario_labels 0
           <? count_occ Nat.eq_dec scenario_labels 1
        then 1 else 0).
Proof.
  split; [exact scenario_trained|].
  apply (predict_zero_vector scenario_model scenario_features
           scenario_labels 1).
  - exact scenario_trained.
  - exact moderate_one.
  - exact scenario_counts.
  - apply le_n.
Defined.

(** ** Inference: probabilities *)

Lemma exp_shift (a b M : R) :
  (exp (a + - M) / (exp (a + - M) + (exp (b + - M) + 0))
   = exp a / (exp a + exp b))%R.
Proof.
  rewrite !exp_plus.
  pose proof (exp_pos a) as Ha. pose proof (exp_pos b) as Hb.
  pose proof (exp_pos (- M)) as HM.
  pose proof (Rmult_lt_0_compat _ _ Ha HM).
  pose proof (Rmult_lt_0_compat _ _ Hb HM).
  field. split; lra.
Qed.

(** The softmax of two finite scores: the shift by the maximum cancels. *)
Lemma softmax_pair (a b : R) :
  softmax [Fin a; Fin b]
  = [Fin (exp a / (exp a + exp b)); Fin (exp b / (exp a + exp b))].
Proof.
  unfold softmax, tmaxf. cbn [fold_right foldr].
  assert (HM : exists M, fmax (Fin a) (fmax (Fin b) NInf) = Fin M).
  { unfold fmax. simpl. destruct (Rltb a b); eauto. }
  destruct HM as [M ->]. unfold tsum. simpl.
  pose proof (exp_pos (a + - M)). pose proof (exp_pos (b + - M)).
  rewrite !fdiv_Fin by lra.
  f_equal; [|f_equal]; f_equal.
  - apply exp_shift.
  - replace (exp (a + - M) + (exp (b + - M) + 0))%R
      with (exp (b + - M) + (exp (a + - M) + 0))%R by lra.
    replace (exp a + exp b)%R with (exp b + exp a)%R by lra.
    apply (exp_shift b a M).
Qed.

Lemma softmax_absent (b : R) : softmax [NInf; Fin b] = [Fin 0; Fin 1].
Proof.
  unfold softmax, tmaxf. cbn [fold_right foldr].
  assert (HM : fmax NInf (fmax (Fin b) NInf) = Fin b) by reflexivity.
  rewrite HM. unfold tsum. simpl.
  replace (b + - b)%R with 0%R by lra. rewrite exp_0.
  rewrite !fdiv_Fin by lra.
  f_equal; [|f_equal]; f_equal; lra.
Qed.

Lemma posterior_finite X labels (d : R) (feature : list float) c :
  nonneg_matrix X -> (0 < d)%R ->
  Forall is_finite feature ->
  In c labels ->
  exists a, posterior_of X labels (Fin d) feature c = Fin a.
Proof.
  intros HX Hd Hf Hc. unfold posterior_of, spec_log_posterior.
  apply (count_occ_In Nat.eq_dec) in Hc.
  rewrite prior_of_positive by lia.
  pose proof (likelihood_finite feature (cond_of X labels (Fin d) c) Hf
                (cond_of_positive X labels d c HX Hd)) as Hl.
  destruct (tsum (zip_mul feature (map flog (cond_of X labels (Fin d) c))));
    try contradiction.
  simpl. eauto.
Qed.

Lemma posterior_absent X labels (d : R) (feature : list float) c :
  nonneg_matrix X -> (0 < d)%R ->
  Forall is_finite feature ->
  ~ In c labels ->
  posterior_of X labels (Fin d) feature c = NInf.
Proof.
  intros HX Hd Hf Hc. unfold posterior_of, spec_log_posterior.
  apply (count_occ_not_In Nat.eq_dec) in Hc.
  rewrite prior_of_zero by assumption.
  pose proof (likelihood_finite feature (cond_of X labels (Fin d) c) Hf
                (cond_of_positive X labels d c HX Hd)) as Hl.
  destruct (tsum (zip_mul feature (map flog (cond_of X labels (Fin d) c))));
    try contradiction.
  reflexivity.
Qed.

(** X21.  On a model trained on word counts with a smoothing parameter of
    moderate size and examples of both classes 0 and 1, [predict_proba]
    returns, for a vector of word counts of the length of the vocabulary,
    the softmax of the two log-posteriors, which are finite: two numbers
    between 0 and 1 that sum to 1. *)
Theorem predict_proba_distribution m X labels (d : R)
    (feature : list float) :
  trained_by m X labels (Fin d) ->
  moderate d -> count_matrix X ->
  In 0 labels -> In 1 labels ->
  count_vector feature -> length feature = ncols X ->
  exists a b p q : R,
    estimate_class_posteriors m feature = Ok [Fin a; Fin b] /\
    predict_proba m feature = Ok [Fin p; Fin q] /\
    p = (exp a / (exp a + exp b))%R /\
    q = (exp b / (exp a + exp b))%R /\
    (0 <= p <= 1)%R /\ (0 <= q <= 1)%R /\ (p + q = 1)%R.
Proof.
  intros Ht Hd HX H0 H1 Hf Hlen.
  apply moderate_pos in Hd. apply count_matrix_nonneg in HX.
  apply count_vector_finite in Hf.
  assert (Hmax : 1 <= list_max_nat labels) by now apply list_max_nat_ge.
  destruct (posteriors_explicit m X labels (Fin d) feature Ht Hmax Hlen)
    as (Hest & _ & Hproba).
  destruct (posterior_finite X labels d feature 0 HX Hd Hf H0) as [a Ha].
  destruct (posterior_finite X labels d feature 1 HX Hd Hf H1) as [b Hb].
  rewrite Ha, Hb in *. rewrite softmax_pair in Hproba.
  exists a, b, (exp a / (exp a + exp b))%R, (exp b / (exp a + exp b))%R.
  pose proof (exp_pos a) as Ea. pose proof (exp_pos b) as Eb.
  assert (Hs : (0 < exp a + exp b)%R) by lra.
  split; [exact Hest|]. split; [exact Hproba|].
  split; [reflexivity|]. split; [reflexivity|].
  assert (Hp : (0 < exp a / (exp a + exp b))%R)
    by now apply Rdiv_lt_0_compat.
  assert (Hq : (0 < exp b / (exp a + exp b))%R)
    by now apply Rdiv_lt_0_compat.
  assert (Hpq : (exp a / (exp a + exp b) + exp b / (exp a + exp b) = 1)%R)
    by (field; lra).
  repeat split; lra.
Qed.

(** X22.  Under the same conditions [predict] and [predict_proba] agree:
    the class that [predict] returns has the larger of the two
    probabilities, or both are equal. *)
Theorem predict_agrees_with_proba m X labels (d : R)
    (feature : list float) :
  trained_by m X labels (Fin d) ->
  moderate d -> count_matrix X ->
  In 0 labels -> In 1 labels ->
  count_vector feature -> length feature = ncols X ->
  exists p q : R,
    predict_proba m feature = Ok [Fin p; Fin q] /\
    ((predict m feature = Ok 0 /\ (q <= p)%R) \/
     (predict m feature = Ok 1 /\ (p <= q)%R)).
Proof.
  intros Ht Hd HX H0 H1 Hf Hlen.
  apply moderate_pos in Hd. apply count_matrix_nonneg in HX.
  apply count_vector_finite in Hf.
  assert (Hmax : 1 <= list_max_nat labels) by now apply list_max_nat_ge.
  destruct (posteriors_explicit m X labels (Fin d) feature Ht Hmax Hlen)
    as (_ & Hpred & Hproba).
  destruct (posterior_finite X labels d feature 0 HX Hd Hf H0) as [a Ha].
  destruct (posterior_finite X labels d feature 1 HX Hd Hf H1) as [b Hb].
  rewrite Ha, Hb in *. rewrite softmax_pair in Hproba.
  exists (exp a / (exp a + exp b))%R, (exp b / (exp a + exp b))%R.
  split; [exact Hproba|]. rewrite Hpred.
  pose proof (exp_pos a) as Ea. pose proof (exp_pos b) as Eb.
  assert (Hs : (0 < / (exp a + exp b))%R)
    by (apply Rinv_0_lt_compat; lra).
  cbn [argmax argmax_from]. unfold greater_or_nan.
  cbn [isnan andb orb negb flt]. unfold Rltb.
  destruct (Rlt_dec a b) as [Hab|Hab].
  - right. split; [reflexivity|].
    apply exp_increasing in Hab. unfold Rdiv.
    left. now apply Rmult_lt_compat_r.
  - left. split; [reflexivity|].
    assert (Hba : (exp b <= exp a)%R).
    { destruct (Req_dec b a) as [E|E]; [rewrite E; lra|].
      left. apply exp_increasing. lra. }
    unfold Rdiv. apply Rmult_le_compat_r; lra.
Qed.

(** X23.  A class without training example is never predicted: on a model
    trained on word counts, with a smoothing parameter of moderate size,
    on labels that contain 1 and not 0, [predict] returns 1 and
    [predict_proba] gives class 0 the probability 0, whatever the vector
    of word counts. *)
Theorem absent_class_never_predicted m X labels (d : R)
    (feature : list float) :
  trained_by m X labels (Fin d) ->
  moderate d -> count_matrix X ->
  ~ In 0 labels -> In 1 labels ->
  count_vector feature -> length feature = ncols X ->
  predict m feature = Ok 1 /\
  predict_proba m feature = Ok [Fin 0; Fin 1].
Proof.
  intros Ht Hd HX H0 H1 Hf Hlen.
  apply moderate_pos in Hd. apply count_matrix_nonneg in HX.
  apply count_vector_finite in Hf.
  assert (Hmax : 1 <= list_max_nat labels) by now apply list_max_nat_ge.
  destruct (posteriors_explicit m X labels (Fin d) feature Ht Hmax Hlen)
    as (_ & -> & ->).
  rewrite (posterior_absent X labels d feature 0 HX Hd Hf H0).
  destruct (posterior_finite X labels d feature 1 HX Hd Hf H1) as [b ->].
  split; [reflexivity|]. now rewrite softmax_absent.
Qed.

Lemma predict_proba_distribution_witness :
  exists a b p q : R,
    estimate_class_posteriors scenario_model scenario_query
    = Ok [Fin a; Fin b] /\
    predict_proba scenario_model scenario_query = Ok [Fin p; Fin q] /\
    p = (exp a / (exp a + exp b))%R /\
    q = (exp b / (exp a + exp b))%R /\
    (0 <= p <= 1)%R /\ (0 <= q <= 1)%R /\ (p + q = 1)%R.
Proof.
  apply (predict_proba_distribution scenario_model scenario_features
           scenario_labels 1 scenario_query).
  - exact scenario_trained.
  - exact moderate_one.
  - exact scenario_counts.
  - simpl. tauto.
  - simpl. tauto.
  - exact scenario_query_counts.
  - reflexivity.
Defined.

Lemma predict_agrees_with_proba_witness :
  exists p q : R,
    predict_proba scenario_model scenario_query = Ok [Fin p; Fin q] /\
    ((predict scenario_model scenario_query = Ok 0 /\ (q <= p)%R) \/
     (predict scenario_model scenario_query = Ok 1 /\ (p <= q)%R)).
Proof.
  apply (predict_agrees_with_proba scenario_model scenario_features
           scenario_labels 1 scenario_query).
  - exact scenario_trained.
  - exact moderate_one.
  - exact scenario_counts.
  - simpl. tauto.
  - simpl. tauto.
  - exact scenario_query_counts.
  - reflexivity.
Defined.

Lemma absent_class_never_predicted_witness :
  trained_by (fst (fit init scenario_features [1; 1] (Fin 1)))
    scenario_features [1; 1] (Fin 1) /\
  predict (fst (fit init scenario_features [1; 1] (Fin 1))) scenario_query
  = Ok 1 /\
  predict_proba (fst (fit init scenario_features [1; 1] (Fin 1)))
    scenario_query
  = Ok [Fin 0; Fin 1].
Proof.
  assert (Ht : trained_by (fst (fit init scenario_features [1; 1] (Fin 1)))
                 scenario_features [1; 1] (Fin 1)).
  { split; [repeat constructor|]. exists init.
    rewrite fit_ok by (discriminate || reflexivity). reflexivity. }
  split; [exact Ht|].
  apply (absent_class_never_predicted _ scenario_features [1; 1] 1
           scenario_query Ht).
  - exact moderate_one.
  - exact scenario_counts.
  - simpl. lia.
  - simpl. tauto.
  - exact scenario_query_counts.
  - reflexivity.
Defined.

(** ** Inference without smoothing *)

Lemma fadd_nan_r x : fadd x NaN = NaN.
Proof. now destruct x. Qed.

Lemma tsum_nan (l : list float) : In NaN l -> tsum l = NaN.
Proof.
  induction l as [|x l IH]; [contradiction|].
  intros [->|H]; rewrite tsum_cons.
  - reflexivity.
  - rewrite IH by assumption. apply fadd_nan_r.
Qed.

Lemma zip_mul_lookup (a b : list float) w x y :
  a !! w = Some x -> b !! w = Some y ->
  zip_mul a b !! w = Some (fmul x y).
Proof.
  revert b w. induction a as [|x' a IH]; intros [|y' b] [|w]; simpl;
    try discriminate.
  - now intros [= ->] [= ->].
  - apply IH.
Qed.

(** The logarithm of an unsmoothed estimate whose count is zero is [-inf],
    or [nan] when the total is zero too; its product by 0 is [nan]. *)
Lemma zero_times_log_zero_count (D : float) :
  fmul (Fin 0) (flog (fdiv (fadd (Fin 0) (Fin 0)) D)) = NaN.
Proof.
  assert (Hz : fmul (Fin 0) NInf = NaN).
  { simpl. unfold signed_inf. now rewrite Reqb_true. }
  destruct D as [r| | |]; cbn [fadd]; unfold fdiv.
  - destruct (Req_EM_T r 0) as [->|Hr].
    + rewrite Reqb_true by reflexivity. unfold signed_inf.
      rewrite Reqb_true by lra. reflexivity.
    + rewrite Reqb_false by assumption. unfold flog.
      rewrite Reqb_true; [exact Hz|]. field. exact Hr.
  - rewrite flog_zero. exact Hz.
  - rewrite flog_zero. exact Hz.
  - reflexivity.
Qed.

(** X24.  Without smoothing ([delta = 0]) a word that class 0 never saw
    and that the text does not contain makes the log-posterior of class 0
    [nan] ([0 * log 0]), and [predict] then returns class 0, whatever the
    rest of the data. *)
Theorem unsmoothed_predict_nan m X labels (feature : list float) (w : nat) :
  trained_by m X labels (Fin 0) ->
  1 <= list_max_nat labels ->
  length feature = ncols X ->
  w < ncols X ->
  spec_count X labels 0 w = Fin 0 ->
  feature !! w = Some (Fin 0) ->
  exists lp1,
    estimate_class_posteriors m feature = Ok [NaN; lp1] /\
    predict m feature = Ok 0.
Proof.
  intros Ht Hmax Hlen Hw Hcount Hfw.
  destruct (posteriors_explicit m X labels (Fin 0) feature Ht Hmax Hlen)
    as (-> & -> & _).
  assert (Hnan : posterior_of X labels (Fin 0) feature 0 = NaN).
  { unfold posterior_of, spec_log_posterior.
    rewrite (tsum_nan (zip_mul feature _)); [apply fadd_nan_r|].
    apply list_elem_of_In. apply list_elem_of_lookup. exists w.
    rewrite (zip_mul_lookup feature _ w (Fin 0)
               (flog (spec_smoothed X labels (Fin 0) 0 w)) Hfw).
    - f_equal. unfold spec_smoothed. rewrite Hcount.
      apply zero_times_log_zero_count.
    - unfold cond_of. rewrite !list_lookup_fmap, lookup_seq_lt by assumption.
      reflexivity. }
  rewrite Hnan. eexists. split; [reflexivity|].
  simpl. unfold greater_or_nan. simpl.
  now rewrite andb_false_r.
Qed.

Lemma unsmoothed_predict_nan_witness :
  trained_by (fst (fit init scenario_features scenario_labels (Fin 0)))
    scenario_features scenario_labels (Fin 0) /\
  exists lp1,
    estimate_class_posteriors
      (fst (fit init scenario_features scenario_labels (Fin 0)))
      [Fin 0; Fin 1; Fin 1] = Ok [NaN; lp1] /\
    predict (fst (fit init scenario_features scenario_labels (Fin 0)))
      [Fin 0; Fin 1; Fin 1] = Ok 0.
Proof.
  assert (Ht : trained_by
                 (fst (fit init scenario_features scenario_labels (Fin 0)))
                 scenario_features scenario_labels (Fin 0)).
  { split; [repeat constructor|]. exists init.
    rewrite fit_ok by (discriminate || reflexivity). reflexivity. }
  split; [exact Ht|].
  apply (unsmoothed_predict_nan _ scenario_features scenario_labels
           [Fin 0; Fin 1; Fin 1] 0 Ht).
  - apply le_n.
  - reflexivity.
  - simpl. lia.
  - unfold spec_count. simpl. f_equal. lra.
  - reflexivity.
Defined.

(** ** The reader *)

Lemma split_on_nonempty sep s : split_on sep s <> [].
Proof.
  destruct s as [|c s]; simpl; [discriminate|].
  destruct (Ascii.eqb c sep); [discriminate|].
  destruct (split_on sep s); discriminate.
Qed.

Lemma split_on_inv sep s p ps :
  split_on sep s = p :: ps ->
  has_char sep p = false /\
  match ps with
  | [] => s = p
  | _ :: _ => exists s', s = String.append p (String sep s') /\
                         split_on sep s' = ps
  end.
Proof.
  revert p ps. induction s as [|c s IH]; intros p ps; simpl.
  - intros [= <- <-]. split; reflexivity.
  - destruct (Ascii.eqb_spec c sep) as [->|Hne].
    + intros [= <- <-]. split; [reflexivity|].
      destruct (split_on sep s) as [|q qs] eqn:E.
      * now apply split_on_nonempty in E.
      * exists s. split; [reflexivity | exact E].
    + destruct (split_on sep s) as [|q qs] eqn:E.
      * now apply split_on_nonempty in E.
      * intros [= <- <-]. destruct (IH q qs eq_refl) as [Hq Hrest].
        split.
        -- simpl. rewrite Hq.
           destruct (Ascii.eqb_spec c sep); [contradiction | reflexivity].
        -- destruct qs as [|r rs].
           ++ now rewrite Hrest.
           ++ destruct Hrest as (s' & -> & Hs'). exists s'.
              split; [reflexivity | exact Hs'].
Qed.

Lemma split_on_no_sep sep a : has_char sep a = false -> split_on sep a = [a].
Proof.
  induction a as [|c a IH]; simpl; [reflexivity|].
  intros H. apply orb_false_iff in H as [Hc Ha].
  rewrite Hc, (IH Ha). reflexivity.
Qed.

Lemma split_on_app sep a s :
  has_char sep a = false ->
  split_on sep (String.append a (String sep s)) = a :: split_on sep s.
Proof.
  induction a as [|c a IH]; simpl.
  - intros _. now rewrite Ascii.eqb_refl.
  - intros H. apply orb_false_iff in H as [Hc Ha].
    rewrite Hc, (IH Ha). reflexivity.
Qed.

(** A string splits in exactly two pieces when it has exactly one
    separator. *)
Lemma split_on_two sep s a b :
  split_on sep s = [a; b]
  <-> s = String.append a (String sep b) /\
      has_char sep a = false /\ has_char sep b = false.
Proof.
  split.
  - intros H. destruct (split_on_inv _ _ _ _ H) as [Ha (s' & -> & Hs')].
    destruct (split_on_inv _ _ _ _ Hs') as [Hb ->]. auto.
  - intros (-> & Ha & Hb).
    now rewrite split_on_app, split_on_no_sep.
Qed.

Section ReaderProperties.
Variable strip : string -> string.
Variable int : string -> option Z.
Variable tokenize : string -> list string.

Local Abbreviation read := (read_sentiment_examples strip int tokenize).
Local Abbreviation step := (read_line strip int tokenize).

Lemma read_line_examples st line :
  (step st line).1
  = st.1 ++ match parse_line strip int tokenize line with
            | Some e => [e]
            | None => []
            end.
Proof.
  destruct st as [examples printed]. unfold read_line, parse_line. simpl.
  destruct (String.eqb (strip line) EmptyString);
    [simpl; now rewrite app_nil_r|].
  destruct (split_on tab (strip line)) as [|text [|label_str [|x xs]]];
    simpl; try now rewrite app_nil_r.
  destruct (int label_str); simpl; [reflexivity | now rewrite app_nil_r].
Qed.

Lemma read_examples_omap lines st :
  (fold_left step lines st).1
  = st.1 ++ omap (parse_line strip int tokenize) lines.
Proof.
  revert st. induction lines as [|line lines IH]; intros st; simpl.
  - now rewrite app_nil_r.
  - rewrite IH, read_line_examples, <- app_assoc. f_equal.
    destruct (parse_line strip int tokenize line); reflexivity.
Qed.

Lemma read_line_account st line :
  length (step st line).1 + length (step st line).2
  + (if blank strip line then 1 else 0)
  = S (length st.1 + length st.2).
Proof.
  destruct st as [examples printed]. unfold read_line, blank. simpl.
  destruct (String.eqb (strip line) EmptyString); [simpl; lia|].
  destruct (split_on tab (strip line)) as [|text [|label_str [|x xs]]];
    simpl; rewrite ?length_app; simpl; try lia.
  destruct (int label_str); simpl; rewrite ?length_app; simpl; lia.
Qed.

(** X25.  Every line of the file is accounted for once: it is blank, or
    gives one example, or one printed line.  No line stops the reading. *)
Theorem read_accounts_for_lines (lines : list string) :
  length lines
  = length (List.filter (blank strip) lines)
    + length (read lines).1 + length (read lines).2.
Proof.
  unfold read_sentiment_examples.
  assert (H : forall st,
            length (fold_left step lines st).1
            + length (fold_left step lines st).2
            + length (List.filter (blank strip) lines)
            = length st.1 + length st.2 + length lines).
  { induction lines as [|line lines IH]; intros st; simpl; [lia|].
    pose proof (read_line_account st line) as Hs.
    specialize (IH (step st line)).
    destruct (blank strip line); simpl; lia. }
  specialize (H ([], [])). simpl in H. lia.
Qed.

(** X26.  The examples returned are exactly those of the lines that, once
    stripped, are a text and a label separated by the only tab of the
    line, with a label that [int] accepts: the words are the tokens of
    the text and the label is the integer. *)
Theorem read_examples_provenance (lines : list string)
    (e : SentimentExample) :
  e ∈ (read lines).1
  <-> exists line text label_str l,
        line ∈ lines /\
        strip line = String.append text (String tab label_str) /\
        has_char tab text = false /\ has_char tab label_str = false /\
        int label_str = Some l /\
        e = mkExample (tokenize text) l.
Proof.
  unfold read_sentiment_examples. rewrite read_examples_omap. simpl.
  rewrite list_elem_of_omap. split.
  - intros (line & Hline & Hparse). unfold parse_line in Hparse.
    destruct (String.eqb (strip line) EmptyString); [discriminate|].
    destruct (split_on tab (strip line)) as [|text [|label_str [|x xs]]]
      eqn:Hsplit; try discriminate.
    destruct (int label_str) as [l|] eqn:Hint; [|discriminate].
    injection Hparse as <-.
    apply split_on_two in Hsplit as (Hs & Ht & Hl).
    exists line, text, label_str, l. auto 10.
  - intros (line & text & label_str & l & Hline & Hs & Ht & Hl & Hint & ->).
    exists line. split; [assumption|]. unfold parse_line. rewrite Hs.
    assert (Hne : String.eqb (String.append text (String tab label_str))
                             EmptyString = false).
    { destruct text; reflexivity. }
    rewrite Hne.
    rewrite (proj2 (split_on_two tab _ text label_str)) by auto.
    now rewrite Hint.
Qed.
End ReaderProperties.
